(** * Browser-side viewers of the Theory-of-Space site

    A shallow embedding of the three UI controllers of the repository:

    - [DatasetViewer]    (src/scripts/datasetViewer.js),
    - [CitationCopy]     (the citation copy helper),
    - [TrajectoryViewer] (src/scripts/trajectoryViewer.ts),

    followed by the properties proved about them.

    Conventions of the embedding.
    - A JavaScript string is a [string]; one character stands for one code
      unit, and the order of [Array.prototype.sort] without a comparator is
      the code-unit-wise lexicographic order ([String.le] of stdpp).
    - A JavaScript number that is used as an index or a count is a [Z] or a
      [nat]; a number that results from a division is a binary64 [float],
      the very format of JavaScript numbers.
    - An element that the code looks up and then guards with [if (el)] is an
      [option]: [None] is the absent element, which every update leaves
      absent.
    - Asynchronous code is cut at its [await]: the part before and the part
      after are two functions, and the outcome of the awaited promise is an
      argument of the second. *)

From Stdlib Require Import ZArith Lia Strings.Ascii.
From Stdlib Require Import Floats.PrimFloat Numbers.Cyclic.Int63.Uint63.
From stdpp Require Import base decidable option list sorting gmap strings pretty.

Local Open Scope string_scope.
Local Open Scope Z_scope.

(** ** Values shared by the controllers *)

(** Truthiness of a string: only the empty string is falsy. *)
Definition truthy (s : string) : bool := bool_decide (s ≠ "").

(** [a || b] on strings. *)
Definition or_else (a b : string) : string := if truthy a then a else b.

(** [el.textContent = v] and the like, under the guard [if (el)]. *)
Definition assign {A} (el : option A) (v : A) : option A :=
  match el with
  | Some _ => Some v
  | None => None
  end.

(** [Array.prototype.indexOf]: the first position of [x], or [-1]. *)
Fixpoint indexOf (x : string) (l : list string) : Z :=
  match l with
  | [] => -1
  | y :: l' =>
      if decide (y = x) then 0
      else let r := indexOf x l' in if r <? 0 then -1 else r + 1
  end.

(** ** DatasetViewer *)

Module DatasetViewer.

(** One parsed line of the JSONL document. *)
Record LayoutSample := {
  layout_type : string;
  images : list string
}.

(** The [<select id="layout-select">]: the values of its options and the
    value last assigned to it.  The label of an option
    ([formatLayoutName]) is presentation only and is not part of the
    model. *)
Record Select := {
  options : list string;
  value : string
}.

(** One [<div class="image-item">] of the rendered grid. *)
Record ImageItem := {
  src : string;
  alt : string
}.

(** What [getSampleHTML] renders: the class of the grid next to
    [images-grid], and the images in order. *)
Record SampleHTML := {
  gridClass : string;
  items : list ImageItem
}.

(** Content of [#data-display]. *)
Inductive Content :=
| PageMarkup                    (* as shipped with the page *)
| NoDataHTML                    (* getNoDataHTML() *)
| Sample (h : SampleHTML)       (* getSampleHTML(currentData) *)
| ErrorHTML (message : string). (* showError(message) *)

Record Display := {
  innerHTML : Content;
  loaded : bool                 (* classList contains 'loaded' *)
}.

(** The fields of the class, and the two elements it writes to. *)
Record Viewer := {
  allData : list LayoutSample;
  filteredData : list LayoutSample;
  currentIndex : nat;
  currentLayout : string;
  availableLayouts : list string;
  layoutSelect : option Select;
  dataDisplay : option Display
}.

(** The state the constructor leaves, for a page that has the given
    elements. *)
Definition new (sel : option Select) (disp : option Display) : Viewer :=
  {| allData := []; filteredData := []; currentIndex := 0;
     currentLayout := ""; availableLayouts := [];
     layoutSelect := sel; dataDisplay := disp |}.

(** [Set.prototype.add]: insertion order, no second copy. *)
Definition set_add (x : string) (s : list string) : list string :=
  if decide (x ∈ s) then s else s ++ [x].

(** The body of the [forEach] of [populateFilterOptions], and the loop
    over [allData] from the empty set. *)
Definition collectStep (layouts : list string) (item : LayoutSample)
  : list string :=
  if truthy (layout_type item) then set_add (layout_type item) layouts
  else layouts.

Definition collectLayouts (data : list LayoutSample) : list string :=
  fold_left collectStep data [].

(** [Array.from(layouts).sort()]. *)
Definition sort (l : list string) : list string := merge_sort String.le l.

Definition updateFilterSelectors (v : Viewer) : Viewer :=
  {| allData := allData v; filteredData := filteredData v;
     currentIndex := currentIndex v; currentLayout := currentLayout v;
     availableLayouts := availableLayouts v;
     layoutSelect :=
       assign (layoutSelect v)
              {| options := availableLayouts v; value := currentLayout v |};
     dataDisplay := dataDisplay v |}.

Definition populateFilterOptions (v : Viewer) : Viewer :=
  let layouts := collectLayouts (allData v) in
  let available := sort layouts in
  let current :=
    match available with
    | first :: _ =>
        if negb (truthy (currentLayout v)) then first else currentLayout v
    | [] => currentLayout v
    end in
  updateFilterSelectors
    {| allData := allData v; filteredData := filteredData v;
       currentIndex := currentIndex v; currentLayout := current;
       availableLayouts := available;
       layoutSelect := layoutSelect v; dataDisplay := dataDisplay v |}.

Definition filterData (v : Viewer) : Viewer :=
  if negb (truthy (currentLayout v)) then
    {| allData := allData v; filteredData := [];
       currentIndex := currentIndex v; currentLayout := currentLayout v;
       availableLayouts := availableLayouts v;
       layoutSelect := layoutSelect v; dataDisplay := dataDisplay v |}
  else
    {| allData := allData v;
       filteredData :=
         filter (fun item => layout_type item = currentLayout v) (allData v);
       currentIndex := 0; currentLayout := currentLayout v;
       availableLayouts := availableLayouts v;
       layoutSelect := layoutSelect v; dataDisplay := dataDisplay v |}.

Definition updateFilterUI (v : Viewer) : Viewer :=
  {| allData := allData v; filteredData := filteredData v;
     currentIndex := currentIndex v; currentLayout := currentLayout v;
     availableLayouts := availableLayouts v;
     layoutSelect :=
       match layoutSelect v with
       | Some s => Some {| options := options s; value := currentLayout v |}
       | None => None
       end;
     dataDisplay := dataDisplay v |}.

(** [getSampleHTML]: the grid class starts as the 4-column one and is
    replaced for at most two and for exactly three images.  The fallback
    [data.images || []] only serves records without the field. *)
Definition getSampleHTML (data : LayoutSample) : SampleHTML :=
  let imgs := images data in
  let numImages := length imgs in
  let gridClass0 := "images-grid-4col" in
  let gridClass1 :=
    if (numImages <=? 2)%nat then "images-grid-2col"
    else if (numImages =? 3)%nat then "images-grid-3col"
    else gridClass0 in
  {| gridClass := gridClass1;
     items :=
       imap (fun index img =>
               {| src := "/data_viewer/" +:+ img;
                  alt := "Layout Image " +:+ pretty (index + 1)%nat |})
            imgs |}.

Definition setDisplay (v : Viewer) (d : option Display) : Viewer :=
  {| allData := allData v; filteredData := filteredData v;
     currentIndex := currentIndex v; currentLayout := currentLayout v;
     availableLayouts := availableLayouts v;
     layoutSelect := layoutSelect v; dataDisplay := d |}.

Definition updateUI (v : Viewer) : Viewer :=
  match dataDisplay v with
  | None => v
  | Some _ =>
      match filteredData v with
      | [] => setDisplay v (Some {| innerHTML := NoDataHTML; loaded := true |})
      | currentData :: _ =>
          setDisplay v
            (Some {| innerHTML := Sample (getSampleHTML currentData);
                     loaded := true |})
      end
  end.

(** [navigateLayout(direction)].  After the two wrap-around tests the
    index is inside the list (lemma [navigateLayout_index_in_range]), so
    the default of the lookup, which stands for [undefined], is never
    taken. *)
Definition wrapIndex (len newIndex : Z) : Z :=
  let newIndex := if newIndex <? 0 then len - 1 else newIndex in
  if newIndex >=? len then 0 else newIndex.

Definition navigateLayout (direction : Z) (v : Viewer) : Viewer :=
  let currentIndex' := indexOf (currentLayout v) (availableLayouts v) in
  if currentIndex' =? -1 then v
  else
    let newIndex :=
      wrapIndex (Z.of_nat (length (availableLayouts v)))
                (currentIndex' + direction) in
    let v1 :=
      {| allData := allData v; filteredData := filteredData v;
         currentIndex := currentIndex v;
         currentLayout :=
           default "" (availableLayouts v !! Z.to_nat newIndex);
         availableLayouts := availableLayouts v;
         layoutSelect := layoutSelect v; dataDisplay := dataDisplay v |} in
    updateUI (filterData (updateFilterUI v1)).

(** [showError]: it writes to [#data-display] without a guard; on a page
    without the element the assignment throws inside the [catch] of
    [init] and nothing is written. *)
Definition showError (message : string) (v : Viewer) : Viewer :=
  match dataDisplay v with
  | Some d =>
      setDisplay v (Some {| innerHTML := ErrorHTML message; loaded := loaded d |})
  | None => v
  end.

(** [init], resumed once [loadData] has settled: [Some data] for the
    parsed lines, [None] when the fetch or a [JSON.parse] threw. *)
Definition init (parsed : option (list LayoutSample)) (v : Viewer) : Viewer :=
  match parsed with
  | Some data =>
      let v0 :=
        {| allData := data; filteredData := filteredData v;
           currentIndex := currentIndex v; currentLayout := currentLayout v;
           availableLayouts := availableLayouts v;
           layoutSelect := layoutSelect v; dataDisplay := dataDisplay v |} in
      updateUI (updateFilterUI (filterData (populateFilterOptions v0)))
  | None => showError "Failed to load dataset" v
  end.

(** The listeners of [setupEventListeners]. *)
Inductive Event :=
| SelectChange (target_value : string)
| PrevClick
| NextClick
| KeyDown (target_tagName key : string).

Definition handle (e : Event) (v : Viewer) : Viewer :=
  match e with
  | SelectChange x =>
      updateUI (filterData
        {| allData := allData v; filteredData := filteredData v;
           currentIndex := currentIndex v; currentLayout := x;
           availableLayouts := availableLayouts v;
           layoutSelect := layoutSelect v; dataDisplay := dataDisplay v |})
  | PrevClick => navigateLayout (-1) v
  | NextClick => navigateLayout 1 v
  | KeyDown tag key =>
      if bool_decide (tag = "INPUT") || bool_decide (tag = "SELECT") then v
      else if bool_decide (key = "ArrowLeft") then navigateLayout (-1) v
      else if bool_decide (key = "ArrowRight") then navigateLayout 1 v
      else v
  end.

(** Ascending without repetition, in the order of [sort]. *)
Definition ascending (a b : string) : Prop := String.le a b ∧ a ≠ b.

#[global] Instance ascending_dec : RelDecision ascending.
Proof. intros a b. unfold ascending. apply _. Defined.

(** *** Runs of the viewer *)

(** The listeners run one after the other, oldest event first. *)
Definition dispatch (events : list Event) (v : Viewer) : Viewer :=
  fold_left (fun v e => handle e v) events v.

(** The records that [filterData] keeps for the current layout. *)
Definition matching (v : Viewer) : list LayoutSample :=
  if truthy (currentLayout v)
  then filter (fun item => layout_type item = currentLayout v) (allData v)
  else [].

(** What [updateUI] writes for a list of filtered records. *)
Definition rendering (filtered : list LayoutSample) : Display :=
  match filtered with
  | [] => {| innerHTML := NoDataHTML; loaded := true |}
  | currentData :: _ =>
      {| innerHTML := Sample (getSampleHTML currentData); loaded := true |}
  end.

(** The state is settled: the filtered records are those of the current
    layout, and the display, if the page has one, shows the first of them
    or the no-data notice. *)
Definition settled (v : Viewer) : Prop :=
  filteredData v = matching v
  ∧ dataDisplay v = assign (dataDisplay v) (rendering (matching v)).

(** *** The document *)

(** The white space of [String.prototype.trim] among the code units below
    256: TAB, LF, VT, FF, CR, SP and NBSP. *)
Definition isWhiteSpace (c : ascii) : bool :=
  match c with
  | "009" | "010" | "011" | "012" | "013" | " " | "160" => true
  | _ => false
  end%char.

Fixpoint trimStart (s : string) : string :=
  match s with
  | "" => ""
  | String c s' => if isWhiteSpace c then trimStart s' else s
  end.

(** White space is dropped from the end: a character goes when it is
    white space and nothing is left behind it. *)
Fixpoint trimEnd (s : string) : string :=
  match s with
  | "" => ""
  | String c s' =>
      match trimEnd s' with
      | "" => if isWhiteSpace c then "" else String c ""
      | rest => String c rest
      end
  end.

Definition trim (s : string) : string := trimEnd (trimStart s).

(** [s.split('\n')]: the pieces between line feeds, one more than there
    are line feeds. *)
Fixpoint splitLines (s : string) : list string :=
  match s with
  | "" => [""]
  | String c s' =>
      if decide (c = "010"%char) then "" :: splitLines s'
      else
        match splitLines s' with
        | line :: lines => String c line :: lines
        | [] => [String c ""]
        end
  end.

(** The lines that [loadData] hands to [JSON.parse]. *)
Definition recordLines (text : string) : list string :=
  filter (fun line => trim line ≠ "") (splitLines (trim text)).

(** [loadData], for a [JSON.parse] that gives [parse line], [None] when it
    throws.  [response] is the text of the response whatever its status
    (the code does not look at [response.ok]), or [None] when [fetch]
    rejects.  The result is [None] when [loadData] throws. *)
Definition loadData (parse : string -> option LayoutSample)
    (response : option string) : option (list LayoutSample) :=
  match response with
  | None => None
  | Some text => mapM parse (recordLines text)
  end.

(** What the two [trim] of [loadData] come to on the lines of a text:
    the first line loses its leading white space, the last line its trailing
    white space. *)
Definition trimFirst (lines : list string) : list string :=
  match lines with
  | [] => []
  | line :: rest => trimStart line :: rest
  end.

Fixpoint trimLast (lines : list string) : list string :=
  match lines with
  | [] => []
  | line :: rest =>
      match rest with
      | [] => [trimEnd line]
      | _ => line :: trimLast rest
      end
  end.

(** The lines of a text without the blank lines at its end, and without
    the trailing white space of the line before them. *)
Fixpoint trimLines (lines : list string) : list string :=
  match lines with
  | [] => []
  | line :: rest =>
      match trimLines rest with
      | [] => if decide (trimEnd line = "") then [] else [trimEnd line]
      | kept => line :: kept
      end
  end.

(** The constructor and [init] on a page with the given elements. *)
Definition start (parse : string -> option LayoutSample)
    (response : option string) (sel : option Select) (disp : option Display)
  : Viewer :=
  init (loadData parse response) (new sel disp).

(** *** A small data set to run the viewer on *)

Module Demo.

(** Three layouts in five records: one record has no layout, and
    ["4room"] comes twice. *)
Definition data : list LayoutSample :=
  [ {| layout_type := "4room"; images := ["4a.png"; "4b.png"] |};
    {| layout_type := "3room"; images := ["3a.png"] |};
    {| layout_type := ""; images := ["x.png"] |};
    {| layout_type := "4room"; images := ["4c.png"] |};
    {| layout_type := "2room_loop"; images := ["2a.png"; "2b.png"; "2c.png"] |} ].

(** A stand-in for [JSON.parse] that knows two lines and throws on every
    other one. *)
Definition parse (line : string) : option LayoutSample :=
  if bool_decide (line = "{4room}")
  then Some {| layout_type := "4room"; images := ["4a.png"; "4b.png"] |}
  else if bool_decide (line = "{3room}")
  then Some {| layout_type := "3room"; images := ["3a.png"] |}
  else None.

(** The viewer after a successful load on a page with both elements. *)
Definition viewer : Viewer :=
  init (Some data)
       (new (Some {| options := []; value := "" |})
            (Some {| innerHTML := PageMarkup; loaded := false |})).

End Demo.

End DatasetViewer.

(** ** CitationCopy *)

Module CitationCopy.

(** [classList.add] and [classList.remove] of a [DOMTokenList]. *)
Definition classList_add (c : string) (l : list string) : list string :=
  if decide (c ∈ l) then l else l ++ [c].

Definition classList_remove (c : string) (l : list string) : list string :=
  filter (fun x => x ≠ c) l.

(** A callback registered with [setTimeout]: when the clock reaches [due]
    it removes the class [removes] from the button. *)
Record Timeout := {
  due : Z;
  removes : string
}.

(** The page in milliseconds of a logical clock: the button's class list,
    the text of the citation block, the clipboard, and the timeouts that
    have not fired yet, oldest first. *)
Record Page := {
  now : Z;
  classList : list string;
  citationText : string;
  clipboard : string;
  timeouts : list Timeout
}.

Definition feedbackDelay : Z := 2000.

(** The click listener, at the instant [navigator.clipboard.writeText]
    settles: [ok] tells whether it resolved.  Nothing is cancelled: the
    listener holds no timer handle. *)
Definition click (ok : bool) (p : Page) : Page :=
  let cls := if ok then "copied" else "copy-error" in
  {| now := now p;
     classList := classList_add cls (classList p);
     citationText := citationText p;
     clipboard := if ok then citationText p else clipboard p;
     timeouts := timeouts p ++ [{| due := now p + feedbackDelay; removes := cls |}] |}.

(** The callbacks of the timeouts in [fired], run in order. *)
Definition runTimeouts (fired : list Timeout) (cl : list string) : list string :=
  fold_left (fun cl t => classList_remove (removes t) cl) fired cl.

(** [d] milliseconds pass: every timeout due by then fires. *)
Definition elapse (d : Z) (p : Page) : Page :=
  let t := now p + d in
  {| now := t;
     classList :=
       runTimeouts (filter (fun x => due x <= t) (timeouts p)) (classList p);
     citationText := citationText p;
     clipboard := clipboard p;
     timeouts := filter (fun x => ¬ due x <= t) (timeouts p) |}.

(** A page at rest: no feedback class, no timeout pending. *)
Definition page0 (text : string) : Page :=
  {| now := 0; classList := []; citationText := text; clipboard := "";
     timeouts := [] |}.

Definition shows (c : string) (p : Page) : bool :=
  bool_decide (c ∈ classList p).

(** *** Runs of the button *)

(** What happens to the page: a click whose clipboard write settles with
    the given outcome, or a stretch of time. *)
Inductive Event :=
| Click (ok : bool)
| Wait (ms : N).

Definition step (e : Event) (p : Page) : Page :=
  match e with
  | Click ok => click ok p
  | Wait ms => elapse (Z.of_N ms) p
  end.

Definition run (events : list Event) (p : Page) : Page :=
  fold_left (fun p e => step e p) events p.

(** The two classes of the feedback. *)
Definition isFeedback (c : string) : bool :=
  bool_decide (c = "copied") || bool_decide (c = "copy-error").

(** The timeouts of a run come from clicks: each removes a feedback class
    and is due within 2000 ms; a feedback class on the button has a timeout
    that will remove it. *)
Definition timed (p : Page) : Prop :=
  Forall (fun t => isFeedback (removes t) = true ∧ due t <= now p + 2000)
         (timeouts p).

Definition covered (p : Page) : Prop :=
  ∀ c, c ∈ classList p -> isFeedback c = true ->
       ∃ t, t ∈ timeouts p ∧ removes t = c.

(** Whether some click of the run copied. *)
Definition copied (events : list Event) : bool :=
  existsb (fun e => match e with Click ok => ok | Wait _ => false end) events.

End CitationCopy.

(** ** TrajectoryViewer *)

Module TrajectoryViewer.

(** *** The interfaces of the data files *)

Module State.
Record t := {
  image : string;
  description : string
}.
End State.

Module Step.
Record t := {
  state : State.t;
  reasoning : string;
  action : string
}.
End Step.

Module Trajectory.
Record t := {
  name : string;
  description : string;
  totalSteps : Z;
  success : bool;
  reasoningScore : string;
  completionTime : string;
  steps : list Step.t
}.
End Trajectory.

(** [trajectories] is a [Record<string, Trajectory>]: its entries in the
    order of [Object.entries], with distinct keys.  That order is not always
    the order of the file: keys that are integers come first, ascending, and
    the other keys follow in the order of the file. *)
Module TaskData.
Record t := {
  taskName : string;
  taskDescription : string;
  trajectories : list (string * Trajectory.t)
}.
End TaskData.

Module Task.
Record t := {
  id : string;
  name : string;
  description : string;
  dataFile : string;
  thumbnail : string
}.
End Task.

Module TaskIndex.
Record t := {
  version : string;
  lastUpdated : string;
  tasks : list Task.t
}.
End TaskIndex.

(** *** Numbers *)

(** An integer as a JavaScript number (exact below 2^53). *)
Definition number (z : Z) : float :=
  if z <? 0 then PrimFloat.opp (PrimFloat.of_uint63 (Uint63.of_Z (- z)))
  else PrimFloat.of_uint63 (Uint63.of_Z z).

(** [(i / (totalSteps - 1)) * 100], as written at both of its places. *)
Definition percentage (i totalSteps : Z) : float :=
  PrimFloat.mul (PrimFloat.div (number i) (number (totalSteps - 1)))
                (number 100).

(** *** The page *)

(** A [<div class="timeline-step">]: the number that precedes [%] in its
    [style.left], its [dataset.index], which is also the argument of its
    click listener, and its [className]. *)
Record Marker := {
  style_left : float;
  index : nat;
  className : string
}.

(** The content of [#timeline-steps]. *)
Inductive Timeline :=
| PageMarkup                          (* as shipped: no bar, no marker *)
| LoadingIndicator                    (* showLoading() *)
| ErrorMessage (message : string)     (* showErrorMessage(message) *)
| Steps (progressWidth : float) (markers : list Marker).

(** The elements of [initTrajectoryViewer].  The two selects and the
    timeline container exist, else nothing is initialised; every other
    element may be absent.  A select is the list of its options, value
    first and text second. *)
Record Dom := {
  taskSelect : list (string * string);
  trajectorySelect : list (string * string);
  timelineStepsContainer : Timeline;
  currentStepElement : option string;
  totalStepsElement : option string;
  stateImageElement : option string;              (* src *)
  stateTextElement : option string;
  reasoningTextElement : option string;           (* innerHTML *)
  actionTextElement : option string;
  successValueElement : option (string * string); (* textContent, className *)
  totalStepsValueElement : option string;
  reasoningScoreElement : option string;
  completionTimeElement : option string;
  prevStepButton : option bool;                   (* disabled *)
  nextStepButton : option bool;                   (* disabled *)
  playIcon : option string;                       (* style.display *)
  pauseIcon : option string                       (* style.display *)
}.

(** A registration of [setInterval]: the delay, and the trajectory that
    the callback of [playTrajectory] has captured. *)
Record Interval := {
  delay : Z;
  trajectory : Trajectory.t
}.

(** The state variables of the closure, the page, and the part of the
    window the code acts on: the live intervals by handle, the next
    handle, and the URLs fetched so far, oldest first. *)
Record Model := {
  availableTasks : list Task.t;
  taskData : gmap string TaskData.t;
  currentTaskId : string;
  currentTrajectoryId : string;
  currentStepIndex : Z;
  isPlaying : bool;
  playInterval : option nat;
  dom : Dom;
  intervals : gmap nat Interval;
  nextHandle : nat;
  fetched : list string
}.

Definition setDom (d : Dom) (m : Model) : Model :=
  {| availableTasks := availableTasks m; taskData := taskData m;
     currentTaskId := currentTaskId m;
     currentTrajectoryId := currentTrajectoryId m;
     currentStepIndex := currentStepIndex m; isPlaying := isPlaying m;
     playInterval := playInterval m; dom := d;
     intervals := intervals m; nextHandle := nextHandle m;
     fetched := fetched m |}.

Definition setTimeline (t : Timeline) (d : Dom) : Dom :=
  {| taskSelect := taskSelect d; trajectorySelect := trajectorySelect d;
     timelineStepsContainer := t;
     currentStepElement := currentStepElement d;
     totalStepsElement := totalStepsElement d;
     stateImageElement := stateImageElement d;
     stateTextElement := stateTextElement d;
     reasoningTextElement := reasoningTextElement d;
     actionTextElement := actionTextElement d;
     successValueElement := successValueElement d;
     totalStepsValueElement := totalStepsValueElement d;
     reasoningScoreElement := reasoningScoreElement d;
     completionTimeElement := completionTimeElement d;
     prevStepButton := prevStepButton d; nextStepButton := nextStepButton d;
     playIcon := playIcon d; pauseIcon := pauseIcon d |}.

Definition setSelects (tasks trajs : list (string * string)) (d : Dom) : Dom :=
  {| taskSelect := tasks; trajectorySelect := trajs;
     timelineStepsContainer := timelineStepsContainer d;
     currentStepElement := currentStepElement d;
     totalStepsElement := totalStepsElement d;
     stateImageElement := stateImageElement d;
     stateTextElement := stateTextElement d;
     reasoningTextElement := reasoningTextElement d;
     actionTextElement := actionTextElement d;
     successValueElement := successValueElement d;
     totalStepsValueElement := totalStepsValueElement d;
     reasoningScoreElement := reasoningScoreElement d;
     completionTimeElement := completionTimeElement d;
     prevStepButton := prevStepButton d; nextStepButton := nextStepButton d;
     playIcon := playIcon d; pauseIcon := pauseIcon d |}.

Definition setIcons (play pause : string) (d : Dom) : Dom :=
  {| taskSelect := taskSelect d; trajectorySelect := trajectorySelect d;
     timelineStepsContainer := timelineStepsContainer d;
     currentStepElement := currentStepElement d;
     totalStepsElement := totalStepsElement d;
     stateImageElement := stateImageElement d;
     stateTextElement := stateTextElement d;
     reasoningTextElement := reasoningTextElement d;
     actionTextElement := actionTextElement d;
     successValueElement := successValueElement d;
     totalStepsValueElement := totalStepsValueElement d;
     reasoningScoreElement := reasoningScoreElement d;
     completionTimeElement := completionTimeElement d;
     prevStepButton := prevStepButton d; nextStepButton := nextStepButton d;
     playIcon := assign (playIcon d) play;
     pauseIcon := assign (pauseIcon d) pause |}.

Definition showErrorMessage (message : string) (m : Model) : Model :=
  setDom (setTimeline (ErrorMessage message) (dom m)) m.

Definition showLoading (m : Model) : Model :=
  setDom (setTimeline LoadingIndicator (dom m)) m.

(** [fetch(url)]: the request goes out. *)
Definition fetch (url : string) (m : Model) : Model :=
  {| availableTasks := availableTasks m; taskData := taskData m;
     currentTaskId := currentTaskId m;
     currentTrajectoryId := currentTrajectoryId m;
     currentStepIndex := currentStepIndex m; isPlaying := isPlaying m;
     playInterval := playInterval m; dom := dom m;
     intervals := intervals m; nextHandle := nextHandle m;
     fetched := fetched m ++ [url] |}.

(** How a [fetch] followed by [response.json()] ends. *)
Inductive Response (A : Type) :=
| NetworkError                                  (* fetch rejects *)
| HttpError (status : Z) (statusText : string)  (* !response.ok *)
| ParseError                                    (* response.json() rejects *)
| Json (data : A).
Arguments NetworkError {A}.
Arguments HttpError {A} status statusText.
Arguments ParseError {A}.
Arguments Json {A} data.

(** *** The current trajectory *)

(** [data.trajectories[id]]. *)
Fixpoint lookupTrajectory (id : string) (l : list (string * Trajectory.t))
  : option Trajectory.t :=
  match l with
  | [] => None
  | (k, tr) :: l' => if decide (k = id) then Some tr else lookupTrajectory id l'
  end.

(** The guards that open [initializeTimeline], [navigateToStep],
    [playTrajectory] and the listener of the next button: both ids are
    set, the task is loaded, and it has the trajectory. *)
Definition currentTrajectory (m : Model) : option Trajectory.t :=
  if negb (truthy (currentTaskId m)) || negb (truthy (currentTrajectoryId m))
  then None
  else
    match taskData m !! currentTaskId m with
    | None => None
    | Some currentTask =>
        lookupTrajectory (currentTrajectoryId m) (TaskData.trajectories currentTask)
    end.

(** *** Navigation *)

(** The [forEach] over [querySelectorAll('.timeline-step')]. *)
Definition markSteps (stepIndex : Z) (markers : list Marker) : list Marker :=
  imap (fun index stepEl =>
          {| style_left := style_left stepEl;
             index := TrajectoryViewer.index stepEl;
             className :=
               if Z.of_nat index <? stepIndex then "timeline-step completed"
               else if Z.of_nat index =? stepIndex then "timeline-step active"
               else "timeline-step" |})
       markers.

(** The timeline part of [navigateToStep]: only a container that holds
    the bar and the markers has anything to update. *)
Definition updateTimeline (stepIndex totalSteps : Z) (t : Timeline) : Timeline :=
  match t with
  | Steps _ markers =>
      Steps (percentage stepIndex totalSteps) (markSteps stepIndex markers)
  | _ => t
  end.

Definition navigateToStep (stepIndex : Z) (m : Model) : Model :=
  match currentTrajectory m with
  | None => m
  | Some trajectory =>
      let totalSteps := Z.of_nat (length (Trajectory.steps trajectory)) in
      if (stepIndex <? 0) || (stepIndex >=? totalSteps) then m
      else
        match Trajectory.steps trajectory !! Z.to_nat stepIndex with
        | None => m    (* excluded by the test above *)
        | Some step =>
            let d := dom m in
            {| availableTasks := availableTasks m; taskData := taskData m;
               currentTaskId := currentTaskId m;
               currentTrajectoryId := currentTrajectoryId m;
               currentStepIndex := stepIndex;
               isPlaying := isPlaying m; playInterval := playInterval m;
               dom :=
                 {| taskSelect := taskSelect d;
                    trajectorySelect := trajectorySelect d;
                    timelineStepsContainer :=
                      updateTimeline stepIndex totalSteps
                                     (timelineStepsContainer d);
                    currentStepElement :=
                      assign (currentStepElement d) (pretty (stepIndex + 1));
                    totalStepsElement := totalStepsElement d;
                    stateImageElement :=
                      assign (stateImageElement d)
                             (or_else (State.image (Step.state step))
                                      "/placeholder-state.png");
                    stateTextElement :=
                      assign (stateTextElement d)
                             (or_else (State.description (Step.state step)) "");
                    reasoningTextElement :=
                      assign (reasoningTextElement d)
                             ("<p>" +:+ or_else (Step.reasoning step) ""
                                    +:+ "</p>");
                    actionTextElement :=
                      assign (actionTextElement d)
                             (or_else (Step.action step) "");
                    successValueElement := successValueElement d;
                    totalStepsValueElement := totalStepsValueElement d;
                    reasoningScoreElement := reasoningScoreElement d;
                    completionTimeElement := completionTimeElement d;
                    prevStepButton :=
                      assign (prevStepButton d) (stepIndex =? 0);
                    nextStepButton :=
                      assign (nextStepButton d) (stepIndex =? totalSteps - 1);
                    playIcon := playIcon d; pauseIcon := pauseIcon d |};
               intervals := intervals m; nextHandle := nextHandle m;
               fetched := fetched m |}
        end
  end.

(** *** The timeline *)

(** The markers that the loop of [initializeTimeline] appends. *)
Definition stepMarkers (totalSteps : nat) : list Marker :=
  map (fun i =>
         {| style_left := percentage (Z.of_nat i) (Z.of_nat totalSteps);
            index := i;
            className := "timeline-step" |})
      (seq 0 totalSteps).

Definition initializeTimeline (m : Model) : Model :=
  match currentTrajectory m with
  | None => m
  | Some trajectory =>
      let totalSteps := length (Trajectory.steps trajectory) in
      let d := dom m in
      let yesno := if Trajectory.success trajectory then "Yes" else "No" in
      let cls :=
        if Trajectory.success trajectory then "metric-value success"
        else "metric-value failure" in
      navigateToStep 0
        (setDom
           {| taskSelect := taskSelect d;
              trajectorySelect := trajectorySelect d;
              timelineStepsContainer :=
                Steps (number 0) (stepMarkers totalSteps);
              currentStepElement := assign (currentStepElement d) "1";
              totalStepsElement :=
                assign (totalStepsElement d) (pretty totalSteps);
              stateImageElement := stateImageElement d;
              stateTextElement := stateTextElement d;
              reasoningTextElement := reasoningTextElement d;
              actionTextElement := actionTextElement d;
              successValueElement :=
                assign (successValueElement d) (yesno, cls);
              totalStepsValueElement :=
                assign (totalStepsValueElement d) (pretty totalSteps);
              reasoningScoreElement :=
                assign (reasoningScoreElement d)
                       (or_else (Trajectory.reasoningScore trajectory) "N/A");
              completionTimeElement :=
                assign (completionTimeElement d)
                       (or_else (Trajectory.completionTime trajectory) "N/A");
              prevStepButton := prevStepButton d;
              nextStepButton := nextStepButton d;
              playIcon := playIcon d; pauseIcon := pauseIcon d |}
           m)
  end.

(** *** Loading *)

Definition taskDataError (taskId : string) : string :=
  "Failed to load data for " +:+ taskId +:+ ". Please try again later.".

(** [loadTaskData(taskId)] up to its [await fetch]: the URL awaited, or
    [None] when the task is not in the index and the [catch] has run. *)
Definition loadTaskData_begin (taskId : string) (m : Model)
  : Model * option string :=
  let m1 := showLoading m in
  match List.find (fun task => bool_decide (Task.id task = taskId))
                  (availableTasks m1) with
  | None => (showErrorMessage (taskDataError taskId) m1, None)
  | Some taskInfo => (fetch (Task.dataFile taskInfo) m1, Some (Task.dataFile taskInfo))
  end.

(** [loadTaskData(taskId)] from the moment the response is in. *)
Definition loadTaskData_resume (taskId : string) (r : Response TaskData.t)
    (m : Model) : Model :=
  match r with
  | Json data =>
      let options :=
        map (fun '(id, trajectory) => (id, or_else (Trajectory.name trajectory) id))
            (TaskData.trajectories data) in
      let stored first :=
        {| availableTasks := availableTasks m;
           taskData := <[taskId := data]> (taskData m);
           currentTaskId := taskId;
           currentTrajectoryId := first;
           currentStepIndex := currentStepIndex m; isPlaying := isPlaying m;
           playInterval := playInterval m;
           dom := setSelects (taskSelect (dom m)) options (dom m);
           intervals := intervals m; nextHandle := nextHandle m;
           fetched := fetched m |} in
      match options with
      | (value, _) :: _ => initializeTimeline (stored value)
      | [] => stored (currentTrajectoryId m)
      end
  | _ => showErrorMessage (taskDataError taskId) m
  end.

(** The whole of [loadTaskData] when nothing else runs in between, against
    a network that answers [net url]. *)
Definition loadTaskData (net : string -> Response TaskData.t)
    (taskId : string) (m : Model) : Model :=
  match loadTaskData_begin taskId m with
  | (m1, Some url) => loadTaskData_resume taskId (net url) m1
  | (m1, None) => m1
  end.

Definition indexUrl : string := "/data/trajectories/qwen2.5-0.5b/index.json".

Definition loadTaskIndex_begin (m : Model) : Model :=
  fetch indexUrl (showLoading m).

(** [loadTaskIndex] from the moment the index is in, up to the [await] of
    the first task's data (the URL awaited and the task id), if any. *)
Definition loadTaskIndex_resume (r : Response TaskIndex.t) (m : Model)
  : Model * option (string * string) :=
  match r with
  | Json data =>
      let m1 :=
        {| availableTasks := TaskIndex.tasks data; taskData := taskData m;
           currentTaskId := currentTaskId m;
           currentTrajectoryId := currentTrajectoryId m;
           currentStepIndex := currentStepIndex m; isPlaying := isPlaying m;
           playInterval := playInterval m;
           dom :=
             setSelects
               (map (fun task => (Task.id task, Task.name task))
                    (TaskIndex.tasks data))
               (trajectorySelect (dom m)) (dom m);
           intervals := intervals m; nextHandle := nextHandle m;
           fetched := fetched m |} in
      match TaskIndex.tasks data with
      | first :: _ =>
          match loadTaskData_begin (Task.id first) m1 with
          | (m2, Some url) => (m2, Some (url, Task.id first))
          | (m2, None) => (m2, None)
          end
      | [] => (m1, None)
      end
  | _ => (showErrorMessage "Failed to load tasks. Please try again later." m, None)
  end.

(** *** Playback *)

Definition playbackDelay : Z := 2000.

(** The block that both the pause branch and the callback run: clear the
    interval if there is one, show the play icon, leave [playing]. *)
Definition pause (m : Model) : Model :=
  {| availableTasks := availableTasks m; taskData := taskData m;
     currentTaskId := currentTaskId m;
     currentTrajectoryId := currentTrajectoryId m;
     currentStepIndex := currentStepIndex m; isPlaying := false;
     playInterval := None;
     dom := setIcons "block" "none" (dom m);
     intervals :=
       match playInterval m with
       | Some h => delete h (intervals m)
       | None => intervals m
       end;
     nextHandle := nextHandle m; fetched := fetched m |}.

(** The callback handed to [setInterval], with the trajectory it
    captured. *)
Definition intervalCallback (trajectory : Trajectory.t) (m : Model) : Model :=
  if currentStepIndex m <? Z.of_nat (length (Trajectory.steps trajectory)) - 1
  then navigateToStep (currentStepIndex m + 1) m
  else pause m.

Definition playTrajectory (m : Model) : Model :=
  match currentTrajectory m with
  | None => m
  | Some trajectory =>
      if isPlaying m then pause m
      else
        {| availableTasks := availableTasks m; taskData := taskData m;
           currentTaskId := currentTaskId m;
           currentTrajectoryId := currentTrajectoryId m;
           currentStepIndex := currentStepIndex m; isPlaying := true;
           playInterval := Some (nextHandle m);
           dom := setIcons "none" "block" (dom m);
           intervals :=
             <[nextHandle m := {| delay := playbackDelay;
                                  trajectory := trajectory |}]> (intervals m);
           nextHandle := S (nextHandle m); fetched := fetched m |}
  end.

(** The window fires the interval [h]: a handle that was cleared fires
    nothing. *)
Definition tick (h : nat) (m : Model) : Model :=
  match intervals m !! h with
  | Some iv => intervalCallback (trajectory iv) m
  | None => m
  end.

(** What is to hold [k] firings after play was pressed at step [cur] of
    [tr], the interval being [h]: the step is [cur + k] capped at the last
    one, and playback is on as long as [cur + k] has not passed it. *)
Definition playing_at (tr : Trajectory.t) (h : nat) (cur : Z) (k : nat)
    (s : Model) : Prop :=
  let last := Z.of_nat (length (Trajectory.steps tr)) - 1 in
  currentTrajectory s = Some tr
  ∧ currentStepIndex s = Z.min (cur + Z.of_nat k) last
  ∧ isPlaying s = (cur + Z.of_nat k <=? last)
  ∧ playInterval s = (if cur + Z.of_nat k <=? last then Some h else None)
  ∧ intervals s !! h
    = (if cur + Z.of_nat k <=? last
       then Some {| delay := 2000; trajectory := tr |} else None).

(** *** Controls *)

Definition setTrajectoryId (id : string) (m : Model) : Model :=
  {| availableTasks := availableTasks m; taskData := taskData m;
     currentTaskId := currentTaskId m; currentTrajectoryId := id;
     currentStepIndex := currentStepIndex m; isPlaying := isPlaying m;
     playInterval := playInterval m; dom := dom m;
     intervals := intervals m; nextHandle := nextHandle m;
     fetched := fetched m |}.

(** The synchronous listeners of [initializeControls], the click on a
    marker, and the firing of an interval. *)
Inductive Event :=
| PrevClick
| NextClick
| PlayPauseClick
| TrajectoryChange (target_value : string)
| MarkerClick (i : nat)
| IntervalFires (h : nat).

Definition handle (e : Event) (m : Model) : Model :=
  match e with
  | PrevClick =>
      if currentStepIndex m >? 0 then navigateToStep (currentStepIndex m - 1) m
      else m
  | NextClick =>
      match currentTrajectory m with
      | None => m
      | Some trajectory =>
          if currentStepIndex m
               <? Z.of_nat (length (Trajectory.steps trajectory)) - 1
          then navigateToStep (currentStepIndex m + 1) m
          else m
      end
  | PlayPauseClick => playTrajectory m
  | TrajectoryChange x => initializeTimeline (setTrajectoryId x m)
  | MarkerClick i => navigateToStep (Z.of_nat i) m
  | IntervalFires h => tick h m
  end.

(** The state of the closure before [init], on a page with the elements
    [d]. *)
Definition initial (d : Dom) : Model :=
  {| availableTasks := []; taskData := ∅; currentTaskId := "";
     currentTrajectoryId := ""; currentStepIndex := 0; isPlaying := false;
     playInterval := None; dom := d; intervals := ∅; nextHandle := 0;
     fetched := [] |}.

(** [init], up to the registration of the listeners: the index answers
    [index], a data file at [url] answers [net url], and nothing else
    happens in between. *)
Definition init (index : Response TaskIndex.t)
    (net : string -> Response TaskData.t) (d : Dom) : Model :=
  match loadTaskIndex_resume index (loadTaskIndex_begin (initial d)) with
  | (m, Some (url, taskId)) => loadTaskData_resume taskId (net url) m
  | (m, None) => m
  end.

(** *** Reachable states *)

(** Everything that can run after the closure is set up: a listener or an
    interval, the two halves of [loadTaskIndex], and the two halves of
    [loadTaskData] started by a change of the task select.  A response may
    come at any time and for any task: real runs are among these, with the
    responses in the order the network delivers them. *)
Inductive Action :=
| Dispatch (e : Event)
| IndexRequested
| IndexArrived (r : Response TaskIndex.t)
| TaskChange (target_value : string)
| TaskDataArrived (taskId : string) (r : Response TaskData.t).

Definition run (a : Action) (m : Model) : Model :=
  match a with
  | Dispatch e => handle e m
  | IndexRequested => loadTaskIndex_begin m
  | IndexArrived r => fst (loadTaskIndex_resume r m)
  | TaskChange x => fst (loadTaskData_begin x m)
  | TaskDataArrived taskId r => loadTaskData_resume taskId r m
  end.

Inductive reachable (d : Dom) : Model -> Prop :=
| reachable_initial : reachable d (initial d)
| reachable_run (a : Action) (m : Model) :
    reachable d m -> reachable d (run a m).

(** The page shows step [stepIndex] of a trajectory with [totalSteps]
    steps: [navigateToStep] would write what is there. *)
Definition showsStep (stepIndex totalSteps : Z) (step : Step.t) (d : Dom) : Prop :=
  updateTimeline stepIndex totalSteps (timelineStepsContainer d)
    = timelineStepsContainer d
  ∧ assign (currentStepElement d) (pretty (stepIndex + 1)) = currentStepElement d
  ∧ assign (stateImageElement d)
           (or_else (State.image (Step.state step)) "/placeholder-state.png")
    = stateImageElement d
  ∧ assign (stateTextElement d) (or_else (State.description (Step.state step)) "")
    = stateTextElement d
  ∧ assign (reasoningTextElement d)
           ("<p>" +:+ or_else (Step.reasoning step) "" +:+ "</p>")
    = reasoningTextElement d
  ∧ assign (actionTextElement d) (or_else (Step.action step) "")
    = actionTextElement d
  ∧ assign (prevStepButton d) (stepIndex =? 0) = prevStepButton d
  ∧ assign (nextStepButton d) (stepIndex =? totalSteps - 1) = nextStepButton d.

(** The page and the current step agree: navigating to the current step
    changes nothing. *)
Definition synced (m : Model) : Prop :=
  navigateToStep (currentStepIndex m) m = m.

(** *** The [totalSteps] field *)

(** The same data with every [totalSteps] field overwritten by [n]. *)
Definition retotal (n : Z) (tr : Trajectory.t) : Trajectory.t :=
  {| Trajectory.name := Trajectory.name tr;
     Trajectory.description := Trajectory.description tr;
     Trajectory.totalSteps := n;
     Trajectory.success := Trajectory.success tr;
     Trajectory.reasoningScore := Trajectory.reasoningScore tr;
     Trajectory.completionTime := Trajectory.completionTime tr;
     Trajectory.steps := Trajectory.steps tr |}.

Definition retotalData (n : Z) (td : TaskData.t) : TaskData.t :=
  {| TaskData.taskName := TaskData.taskName td;
     TaskData.taskDescription := TaskData.taskDescription td;
     TaskData.trajectories :=
       map (fun '(k, tr) => (k, retotal n tr)) (TaskData.trajectories td) |}.

Definition retotalModel (n : Z) (m : Model) : Model :=
  {| availableTasks := availableTasks m;
     taskData := retotalData n <$> taskData m;
     currentTaskId := currentTaskId m;
     currentTrajectoryId := currentTrajectoryId m;
     currentStepIndex := currentStepIndex m; isPlaying := isPlaying m;
     playInterval := playInterval m; dom := dom m;
     intervals :=
       (fun iv => {| delay := delay iv; trajectory := retotal n (trajectory iv) |})
         <$> intervals m;
     nextHandle := nextHandle m; fetched := fetched m |}.

(** *** What holds in the states of a run *)

(** At most one interval is live: none while paused, the one held in
    [playInterval] while playing, registered with the playback delay. *)
Definition oneTimer (m : Model) : Prop :=
  match playInterval m with
  | None => isPlaying m = false ∧ intervals m = ∅
  | Some h =>
      isPlaying m = true
      ∧ ∃ trajectory,
          intervals m = {[ h := {| delay := playbackDelay; trajectory := trajectory |} ]}
  end.

(** The current step is a step of the current trajectory, unless that
    trajectory has no step at all. *)
Definition inBounds (m : Model) : Prop :=
  0 <= currentStepIndex m
  ∧ ∀ tr, currentTrajectory m = Some tr ->
          Trajectory.steps tr ≠ [] ->
          currentStepIndex m < Z.of_nat (length (Trajectory.steps tr)).

(** A timeline that shows markers shows those of the current trajectory,
    marked for the current step. *)
Definition timelineCurrent (m : Model) : Prop :=
  ∀ tr width markers,
    currentTrajectory m = Some tr ->
    timelineStepsContainer (dom m) = Steps width markers ->
    markers = markSteps (currentStepIndex m)
                        (stepMarkers (length (Trajectory.steps tr))).

(** *** A small site to run the controller on *)

Module Demo.

Definition step (img text why act : string) : Step.t :=
  {| Step.state := {| State.image := img; State.description := text |};
     Step.reasoning := why; Step.action := act |}.

(** Three steps; its [totalSteps] field says three. *)
Definition walk : Trajectory.t :=
  {| Trajectory.name := "Walk"; Trajectory.description := "door to door";
     Trajectory.totalSteps := 3; Trajectory.success := true;
     Trajectory.reasoningScore := "0.9"; Trajectory.completionTime := "12s";
     Trajectory.steps :=
       [ step "s0.png" "at the door" "the hall is ahead" "forward";
         step "s1.png" "in the hall" "the room is left" "turn left";
         step "s2.png" "in the room" "arrived" "stop" ] |}.

(** Exactly one step. *)
Definition glance : Trajectory.t :=
  {| Trajectory.name := ""; Trajectory.description := "one look";
     Trajectory.totalSteps := 1; Trajectory.success := false;
     Trajectory.reasoningScore := ""; Trajectory.completionTime := "";
     Trajectory.steps := [ step "" "at the door" "" "look" ] |}.

Definition rooms : TaskData.t :=
  {| TaskData.taskName := "Rooms"; TaskData.taskDescription := "find the room";
     TaskData.trajectories := [("walk", walk); ("glance", glance)] |}.

Definition looks : TaskData.t :=
  {| TaskData.taskName := "Looks"; TaskData.taskDescription := "look once";
     TaskData.trajectories := [("glance", glance)] |}.

Definition index : TaskIndex.t :=
  {| TaskIndex.version := "1"; TaskIndex.lastUpdated := "2025-01-01";
     TaskIndex.tasks :=
       [ {| Task.id := "rooms"; Task.name := "Rooms"; Task.description := "";
            Task.dataFile := "/data/rooms.json"; Task.thumbnail := "" |};
         {| Task.id := "looks"; Task.name := "Looks"; Task.description := "";
            Task.dataFile := "/data/looks.json"; Task.thumbnail := "" |};
         {| Task.id := "gone"; Task.name := "Gone"; Task.description := "";
            Task.dataFile := "/data/gone.json"; Task.thumbnail := "" |} ] |}.

(** The server: two data files, everything else is a 404. *)
Definition net (url : string) : Response TaskData.t :=
  if bool_decide (url = "/data/rooms.json") then Json rooms
  else if bool_decide (url = "/data/looks.json") then Json looks
  else HttpError 404 "Not Found".

(** A page with every element of the viewer. *)
Definition page : Dom :=
  {| taskSelect := []; trajectorySelect := [];
     timelineStepsContainer := PageMarkup;
     currentStepElement := Some "0"; totalStepsElement := Some "0";
     stateImageElement := Some ""; stateTextElement := Some "";
     reasoningTextElement := Some ""; actionTextElement := Some "";
     successValueElement := Some ("", "metric-value");
     totalStepsValueElement := Some "0";
     reasoningScoreElement := Some ""; completionTimeElement := Some "";
     prevStepButton := Some false; nextStepButton := Some false;
     playIcon := Some "block"; pauseIcon := Some "none" |}.

(** The viewer once [init] is through: task ["rooms"], trajectory
    ["walk"], step 0. *)
Definition loaded : Model := init (Json index) net page.

(** Play pressed on step 0 of ["walk"]: the interval 0 has captured
    ["walk"]. *)
Definition played : Model := handle PlayPauseClick loaded.


End Demo.

End TrajectoryViewer.

(** * Properties *)

(** ** Shared lemmas *)

(** Case analysis on the integer tests of a goal, closing by arithmetic
    the branches that cannot happen. *)
Ltac zcases :=
  repeat (match goal with
          | |- context [Z.geb ?a ?b] => rewrite (Z.geb_leb a b)
          | |- context [Z.gtb ?a ?b] => rewrite (Z.gtb_ltb a b)
          | |- context [Z.ltb ?a ?b] => destruct (Z.ltb_spec a b)
          | |- context [Z.leb ?a ?b] => destruct (Z.leb_spec a b)
          | |- context [Z.eqb ?a ?b] => destruct (Z.eqb_spec a b)
          end; cbv beta iota; try lia).

Lemma truthy_true (s : string) : truthy s = true <-> s ≠ "".
Proof. unfold truthy. by rewrite bool_decide_eq_true. Qed.

Lemma truthy_false (s : string) : truthy s = false <-> s = "".
Proof.
  unfold truthy. rewrite bool_decide_eq_false. split; [|by intros ->; auto].
  intros H. by destruct (decide (s = "")).
Qed.

Lemma assign_assign {A} (el : option A) (v w : A) :
  assign (assign el v) w = assign el w.
Proof. by destruct el. Qed.

(** In a list without repetition, [indexOf] finds the position an element
    is at. *)
Lemma indexOf_lookup (l : list string) (i : nat) (x : string) :
  NoDup l -> l !! i = Some x -> indexOf x l = Z.of_nat i.
Proof.
  revert i. induction l as [|y l IH]; intros i Hnd Hi; [done|].
  apply NoDup_cons in Hnd as [Hy Hnd]. simpl.
  destruct i as [|i]; simpl in Hi.
  - injection Hi as ->. by rewrite decide_True.
  - rewrite decide_False.
    + rewrite (IH i Hnd Hi).
      destruct (Z.of_nat i <? 0) eqn:E; lia.
    + intros ->. apply Hy. eapply list_elem_of_lookup_2, Hi.
Qed.

Lemma indexOf_absent (x : string) (l : list string) :
  x ∉ l -> indexOf x l = -1.
Proof.
  induction l as [|y l IH]; intros Hx; [done|].
  apply not_elem_of_cons in Hx as [Hne Hx]. simpl.
  rewrite decide_False by done. rewrite (IH Hx). done.
Qed.

(** ** DatasetViewer: layouts, navigation, grid *)

Module DatasetViewerFacts.
Import DatasetViewer.

Lemma elem_of_set_add (x y : string) (s : list string) :
  x ∈ set_add y s <-> x ∈ s ∨ x = y.
Proof.
  unfold set_add. destruct (decide (y ∈ s)) as [Hy|Hy].
  - split; [auto|]. intros [?| ->]; done.
  - rewrite elem_of_app, list_elem_of_singleton. done.
Qed.

Lemma NoDup_set_add (y : string) (s : list string) :
  NoDup s -> NoDup (set_add y s).
Proof.
  intros Hs. unfold set_add. destruct (decide (y ∈ s)) as [Hy|Hy]; [done|].
  apply NoDup_app. split; [done|]. split.
  - intros x Hx Hx'. apply list_elem_of_singleton in Hx' as ->. done.
  - apply NoDup_singleton.
Qed.

Lemma elem_of_fold_step (data : list LayoutSample) (acc : list string) (x : string) :
  x ∈ fold_left collectStep data acc <->
  x ∈ acc ∨ (x ≠ "" ∧ ∃ item, item ∈ data ∧ layout_type item = x).
Proof.
  revert acc. induction data as [|item data IH]; intros acc; simpl.
  - split; [auto|]. intros [?|[_ (item & Hin & _)]]; [done|].
    by apply elem_of_nil in Hin.
  - rewrite IH. unfold collectStep.
    destruct (truthy (layout_type item)) eqn:Ht.
    + apply truthy_true in Ht. rewrite elem_of_set_add. split.
      * intros [[?| ->]|(Hx & it & Hin & Heq)]; auto.
        -- right. split; [done|]. exists item. split; [left|done].
        -- right. split; [done|]. exists it. split; [by right|done].
      * intros [?|(Hx & it & Hin & Heq)]; auto.
        apply elem_of_cons in Hin as [->|Hin]; auto.
        right. split; [done|]. by exists it.
    + apply truthy_false in Ht. split.
      * intros [?|(Hx & it & Hin & Heq)]; auto.
        right. split; [done|]. exists it. split; [by right|done].
      * intros [?|(Hx & it & Hin & Heq)]; auto.
        apply elem_of_cons in Hin as [->|Hin]; [congruence|].
        right. split; [done|]. by exists it.
Qed.

Lemma NoDup_fold_step (data : list LayoutSample) (acc : list string) :
  NoDup acc -> NoDup (fold_left collectStep data acc).
Proof.
  revert acc. induction data as [|item data IH]; intros acc Hacc; simpl; [done|].
  apply IH. unfold collectStep. destruct (truthy (layout_type item)); [|done].
  by apply NoDup_set_add.
Qed.

Lemma elem_of_collectLayouts (data : list LayoutSample) (x : string) :
  x ∈ collectLayouts data <->
  x ≠ "" ∧ ∃ item, item ∈ data ∧ layout_type item = x.
Proof.
  unfold collectLayouts. rewrite elem_of_fold_step. split; [|auto].
  intros [Hx|?]; [|done]. by apply elem_of_nil in Hx.
Qed.

Lemma NoDup_collectLayouts (data : list LayoutSample) :
  NoDup (collectLayouts data).
Proof. apply NoDup_fold_step, NoDup_nil_2. Qed.

Lemma elem_of_sort (l : list string) (x : string) : x ∈ sort l <-> x ∈ l.
Proof. unfold sort. by rewrite merge_sort_Permutation. Qed.

Lemma NoDup_sort (l : list string) : NoDup l -> NoDup (sort l).
Proof. unfold sort. by rewrite merge_sort_Permutation. Qed.

Lemma sort_sorted (l : list string) : StronglySorted String.le (sort l).
Proof. apply StronglySorted_merge_sort; apply _. Qed.

(** Whatever algorithm the engine sorts with, the result is this one: a
    sorted rearrangement is unique. *)
Lemma sort_unique (l l' : list string) :
  l' ≡ₚ l -> Sorted String.le l' -> l' = sort l.
Proof.
  intros Hp Hs. apply (Sorted_unique String.le); [done| |].
  - apply Sorted_merge_sort; apply _.
  - unfold sort. by rewrite merge_sort_Permutation.
Qed.

Lemma StronglySorted_NoDup_ascending (l : list string) :
  StronglySorted String.le l -> NoDup l -> StronglySorted ascending l.
Proof.
  induction 1 as [|x l Hl IH Hx]; intros Hnd; constructor.
  - apply IH. by apply NoDup_cons in Hnd as [_ ?].
  - apply NoDup_cons in Hnd as [Hnx _].
    apply Forall_forall. intros y Hy. split.
    + eapply Forall_forall in Hx; eauto.
    + intros ->. done.
Qed.

Lemma ascending_NoDup (l : list string) :
  StronglySorted ascending l -> NoDup l.
Proof.
  induction 1 as [|x l Hl IH Hx]; constructor; [|done].
  intros Hin. eapply Forall_forall in Hx; eauto. by destruct Hx.
Qed.

Lemma populateFilterOptions_fields (v : Viewer) :
  availableLayouts (populateFilterOptions v) = sort (collectLayouts (allData v))
  ∧ allData (populateFilterOptions v) = allData v
  ∧ currentLayout (populateFilterOptions v) =
      match sort (collectLayouts (allData v)) with
      | first :: _ =>
          if negb (truthy (currentLayout v)) then first else currentLayout v
      | [] => currentLayout v
      end.
Proof. done. Qed.

Lemma populateFilterOptions_ascending (v : Viewer) :
  StronglySorted ascending (availableLayouts (populateFilterOptions v)).
Proof.
  destruct (populateFilterOptions_fields v) as (-> & _).
  apply StronglySorted_NoDup_ascending; [apply sort_sorted|].
  apply NoDup_sort, NoDup_collectLayouts.
Qed.

(** C6, as the code has it.  After [populateFilterOptions] the selectable
    layouts are exactly the distinct NON-EMPTY [layout_type] values of the
    loaded records (the guard [if (item.layout_type)] drops the empty
    string), in strictly ascending code-unit order; when no layout was
    chosen before, the first of them becomes the current one, and a layout
    chosen before is kept. *)
Theorem populateFilterOptions_layouts (v : Viewer) :
  (∀ x, x ∈ availableLayouts (populateFilterOptions v) <->
        x ≠ "" ∧ ∃ item, item ∈ allData v ∧ layout_type item = x)
  ∧ StronglySorted ascending (availableLayouts (populateFilterOptions v))
  ∧ (currentLayout v = "" ->
     ∀ first rest, availableLayouts (populateFilterOptions v) = first :: rest ->
                   currentLayout (populateFilterOptions v) = first)
  ∧ (currentLayout v ≠ "" ->
     currentLayout (populateFilterOptions v) = currentLayout v).
Proof.
  destruct (populateFilterOptions_fields v) as (Hav & _ & Hcur).
  rewrite Hav, Hcur. split; [|split; [|split]].
  - intros x. by rewrite elem_of_sort, elem_of_collectLayouts.
  - rewrite <- Hav. apply populateFilterOptions_ascending.
  - intros Hnone first rest ->.
    apply truthy_false in Hnone. by rewrite Hnone.
  - intros Hsome. apply truthy_true in Hsome.
    destruct (sort _); [done|]. by rewrite Hsome.
Qed.

(** The example of the specification: records for ["4room"] and
    ["3room"], in that order, on a fresh viewer. *)
Example populateFilterOptions_rooms :
  let v := init (Some [ {| layout_type := "4room"; images := ["a.png"; "b.png"] |};
                        {| layout_type := "3room"; images := ["c.png"] |} ])
                (new None None) in
  availableLayouts v = ["3room"; "4room"] ∧ currentLayout v = "3room".
Proof. vm_compute. done. Qed.

(** C6, as the specification words it, fails on a record whose
    [layout_type] is the empty string: the value is present in the input
    and no layout is selectable. *)
Lemma populateFilterOptions_drops_empty :
  let data := [ {| layout_type := ""; images := ["a.png"] |} ] in
  let v := init (Some data) (new None None) in
  layout_type <$> allData v = [""] ∧ availableLayouts v = [].
Proof. vm_compute. done. Qed.

(** *** Navigation between layouts *)

Lemma currentLayout_updateUI (v : Viewer) :
  currentLayout (updateUI v) = currentLayout v
  ∧ availableLayouts (updateUI v) = availableLayouts v.
Proof.
  unfold updateUI. destruct (dataDisplay v); [|done].
  by destruct (filteredData v).
Qed.

Lemma currentLayout_filterData (v : Viewer) :
  currentLayout (filterData v) = currentLayout v
  ∧ availableLayouts (filterData v) = availableLayouts v.
Proof. unfold filterData. by destruct (negb _). Qed.

(** Loading: [init] stores the parsed records, and what follows
    [populateFilterOptions] keeps the layouts and the current layout. *)
Lemma init_layouts (data : list LayoutSample) (v : Viewer) :
  let v0 := {| allData := data; filteredData := filteredData v;
               currentIndex := currentIndex v; currentLayout := currentLayout v;
               availableLayouts := availableLayouts v;
               layoutSelect := layoutSelect v; dataDisplay := dataDisplay v |} in
  availableLayouts (init (Some data) v) = availableLayouts (populateFilterOptions v0)
  ∧ currentLayout (init (Some data) v) = currentLayout (populateFilterOptions v0).
Proof.
  intros v0. unfold init. fold v0.
  destruct (currentLayout_updateUI
              (updateFilterUI (filterData (populateFilterOptions v0)))) as [-> ->].
  simpl.
  by destruct (currentLayout_filterData (populateFilterOptions v0)) as [-> ->].
Qed.

(** After the two wrap-around tests the index is inside a non-empty
    list. *)
Lemma navigateLayout_index_in_range (len newIndex : Z) :
  0 < len -> 0 <= wrapIndex len newIndex < len.
Proof.
  intros Hlen. unfold wrapIndex.
  destruct (newIndex <? 0) eqn:E1.
  - destruct (len - 1 >=? len) eqn:E2; lia.
  - destruct (newIndex >=? len) eqn:E2; lia.
Qed.

Lemma navigateLayout_current (v : Viewer) (i : nat) (direction : Z) :
  NoDup (availableLayouts v) ->
  availableLayouts v !! i = Some (currentLayout v) ->
  availableLayouts (navigateLayout direction v) = availableLayouts v
  ∧ availableLayouts v
      !! Z.to_nat (wrapIndex (Z.of_nat (length (availableLayouts v)))
                             (Z.of_nat i + direction))
    = Some (currentLayout (navigateLayout direction v)).
Proof.
  intros Hnd Hi. unfold navigateLayout.
  rewrite (indexOf_lookup _ _ _ Hnd Hi).
  destruct (Z.eqb_spec (Z.of_nat i) (-1)) as [?|_]; [lia|].
  set (k := wrapIndex _ _).
  destruct (currentLayout_updateUI
              (filterData (updateFilterUI
                 {| allData := allData v; filteredData := filteredData v;
                    currentIndex := currentIndex v;
                    currentLayout := default "" (availableLayouts v !! Z.to_nat k);
                    availableLayouts := availableLayouts v;
                    layoutSelect := layoutSelect v;
                    dataDisplay := dataDisplay v |}))) as [-> ->].
  destruct (currentLayout_filterData
              (updateFilterUI
                 {| allData := allData v; filteredData := filteredData v;
                    currentIndex := currentIndex v;
                    currentLayout := default "" (availableLayouts v !! Z.to_nat k);
                    availableLayouts := availableLayouts v;
                    layoutSelect := layoutSelect v;
                    dataDisplay := dataDisplay v |})) as [-> ->].
  simpl. split; [done|].
  assert (0 <= k < Z.of_nat (length (availableLayouts v))) as Hk.
  { apply navigateLayout_index_in_range.
    apply lookup_lt_Some in Hi. lia. }
  destruct (lookup_lt_is_Some_2 (availableLayouts v) (Z.to_nat k)) as [x Hx];
    [lia|].
  by rewrite Hx.
Qed.

(** A current layout that is not among the layouts stops the navigation
    at its first test. *)
Lemma navigateLayout_absent (v : Viewer) (direction : Z) :
  currentLayout v ∉ availableLayouts v -> navigateLayout direction v = v.
Proof.
  intros Habsent. unfold navigateLayout.
  by rewrite (indexOf_absent _ _ Habsent).
Qed.

(** C7.  On a non-empty list of layouts in ascending order whose [i]-th
    entry is the current layout: "next" from the last entry selects the
    first, "previous" from the first selects the last, and everywhere else
    "next" and "previous" select the neighbour in the list. *)
Theorem navigateLayout_wraps (v : Viewer) (i : nat) :
  StronglySorted ascending (availableLayouts v) ->
  availableLayouts v !! i = Some (currentLayout v) ->
  let n := length (availableLayouts v) in
  ((i + 1 = n)%nat ->
     availableLayouts v !! 0%nat = Some (currentLayout (navigateLayout 1 v)))
  ∧ (i = 0%nat ->
     availableLayouts v !! (n - 1)%nat
       = Some (currentLayout (navigateLayout (-1) v)))
  ∧ ((i + 1 < n)%nat ->
     availableLayouts v !! (i + 1)%nat
       = Some (currentLayout (navigateLayout 1 v)))
  ∧ ((0 < i)%nat ->
     availableLayouts v !! (i - 1)%nat
       = Some (currentLayout (navigateLayout (-1) v))).
Proof.
  intros Hs Hi n. apply ascending_NoDup in Hs.
  pose proof (lookup_lt_Some _ _ _ Hi) as Hlt. fold n in Hlt.
  destruct (navigateLayout_current v i 1 Hs Hi) as [_ Hnext].
  destruct (navigateLayout_current v i (-1) Hs Hi) as [_ Hprev].
  fold n in Hnext, Hprev.
  repeat split; intros H.
  - rewrite <- Hnext. f_equal. unfold wrapIndex. zcases.
  - rewrite <- Hprev. f_equal. subst i. unfold wrapIndex. zcases.
  - rewrite <- Hnext. f_equal. unfold wrapIndex. zcases.
  - rewrite <- Hprev. f_equal. unfold wrapIndex. zcases.
Qed.

Lemma navigateLayout_wraps_witness :
  let v := init (Some [ {| layout_type := "4room"; images := ["a.png"; "b.png"] |};
                        {| layout_type := "3room"; images := ["c.png"] |} ])
                (new None None) in
  currentLayout (navigateLayout (-1) v) = "4room"
  ∧ currentLayout (navigateLayout 1 (navigateLayout (-1) v)) = "3room".
Proof.
  set (data := [ {| layout_type := "4room"; images := ["a.png"; "b.png"] |};
                 {| layout_type := "3room"; images := ["c.png"] |} ]).
  intros v.
  assert (StronglySorted ascending ["3room"; "4room"]) as Hs.
  { apply (bool_decide_unpack _). by vm_compute. }
  split.
  - destruct (navigateLayout_wraps v 0 Hs eq_refl) as (_ & Hprev & _ & _).
    specialize (Hprev eq_refl). apply (inj Some). by rewrite <- Hprev.
  - destruct (navigateLayout_wraps (navigateLayout (-1) v) 1 Hs eq_refl)
      as (Hnext & _ & _ & _).
    specialize (Hnext eq_refl). apply (inj Some). by rewrite <- Hnext.
Defined.

(** The list that is navigated is in ascending order in every run: [init]
    leaves it so, and no listener changes it. *)
Lemma init_ascending (data : list LayoutSample) (v : Viewer) :
  StronglySorted ascending (availableLayouts (init (Some data) v)).
Proof.
  destruct (init_layouts data v) as [-> _].
  apply populateFilterOptions_ascending.
Qed.

Lemma handle_availableLayouts (e : Event) (v : Viewer) :
  availableLayouts (handle e v) = availableLayouts v.
Proof.
  assert (∀ direction, availableLayouts (navigateLayout direction v)
                       = availableLayouts v) as Hnav.
  { intros direction. unfold navigateLayout. destruct (_ =? _); [done|].
    set (v1 := {| allData := _ |}).
    destruct (currentLayout_updateUI (filterData (updateFilterUI v1))) as [_ ->].
    by destruct (currentLayout_filterData (updateFilterUI v1)) as [_ ->]. }
  destruct e as [x| | |tag key]; simpl; try apply Hnav.
  - set (v1 := {| allData := _ |}).
    destruct (currentLayout_updateUI (filterData v1)) as [_ ->].
    by destruct (currentLayout_filterData v1) as [_ ->].
  - destruct (_ || _); [done|].
    destruct (bool_decide (key = "ArrowLeft")); [apply Hnav|].
    destruct (bool_decide (key = "ArrowRight")); [apply Hnav|done].
Qed.

(** *** The grid of a rendered sample *)

Lemma updateUI_renders (v : Viewer) (d : Display) (currentData : LayoutSample)
    (rest : list LayoutSample) :
  dataDisplay v = Some d ->
  filteredData v = currentData :: rest ->
  dataDisplay (updateUI v)
  = Some {| innerHTML := Sample (getSampleHTML currentData); loaded := true |}.
Proof. intros Hd Hf. unfold updateUI. by rewrite Hd, Hf. Qed.

(** C9.  The grid class of a rendered sample depends on the number of its
    images only: one or two images give the 2-column grid, three the
    3-column grid, four or more the 4-column grid. *)
Theorem getSampleHTML_gridClass (data : LayoutSample) :
  let n := length (images data) in
  (∀ data', length (images data') = n ->
            gridClass (getSampleHTML data') = gridClass (getSampleHTML data))
  ∧ ((1 <= n <= 2)%nat -> gridClass (getSampleHTML data) = "images-grid-2col")
  ∧ (n = 3%nat -> gridClass (getSampleHTML data) = "images-grid-3col")
  ∧ ((4 <= n)%nat -> gridClass (getSampleHTML data) = "images-grid-4col").
Proof.
  intros n. unfold getSampleHTML. simpl. fold n. repeat split.
  - intros data' ->. done.
  - intros H. destruct (Nat.leb_spec n 2); [done|lia].
  - intros ->. done.
  - intros H. destruct (Nat.leb_spec n 2); [lia|].
    destruct (Nat.eqb_spec n 3); [lia|done].
Qed.

(** The five counts of the specification. *)
Example getSampleHTML_gridClass_1_to_5 :
  (fun imgs => gridClass (getSampleHTML {| layout_type := "3room"; images := imgs |}))
    <$> [ ["a"]; ["a"; "b"]; ["a"; "b"; "c"]; ["a"; "b"; "c"; "d"];
          ["a"; "b"; "c"; "d"; "e"] ]
  = [ "images-grid-2col"; "images-grid-2col"; "images-grid-3col";
      "images-grid-4col"; "images-grid-4col" ].
Proof. reflexivity. Qed.

End DatasetViewerFacts.

(** ** CitationCopy: how long the feedback lasts *)

Module CitationCopyFacts.
Import CitationCopy.

Lemma elem_of_classList_add (x c : string) (l : list string) :
  x ∈ classList_add c l <-> x ∈ l ∨ x = c.
Proof.
  unfold classList_add. destruct (decide (c ∈ l)) as [Hc|Hc].
  - split; [auto|]. intros [?| ->]; done.
  - by rewrite elem_of_app, list_elem_of_singleton.
Qed.

Lemma elem_of_classList_remove (x c : string) (l : list string) :
  x ∈ classList_remove c l <-> x ∈ l ∧ x ≠ c.
Proof. unfold classList_remove. rewrite list_elem_of_filter. tauto. Qed.

Lemma shows_true (c : string) (p : Page) : shows c p = true <-> c ∈ classList p.
Proof. unfold shows. by rewrite bool_decide_eq_true. Qed.

Lemma shows_false (c : string) (p : Page) : shows c p = false <-> c ∉ classList p.
Proof. unfold shows. by rewrite bool_decide_eq_false. Qed.

(** A timeout that is not due stays; one that is due fires. *)
Lemma elapse_waiting (d : Z) (p : Page) :
  Forall (fun x => now p + d < due x) (timeouts p) ->
  classList (elapse d p) = classList p ∧ timeouts (elapse d p) = timeouts p.
Proof.
  intros Hall. unfold elapse. simpl.
  induction (timeouts p) as [|x ts IH]; [done|].
  apply Forall_cons in Hall as [Hx Hts]. destruct (IH Hts) as [IH1 IH2].
  rewrite !filter_cons. rewrite decide_False by lia.
  rewrite decide_True by lia. by rewrite IH2.
Qed.

Lemma runTimeouts_removes (c : string) (fired : list Timeout) (cl : list string) :
  c ∈ runTimeouts fired cl <-> c ∈ cl ∧ Forall (fun x => removes x ≠ c) fired.
Proof.
  revert cl. unfold runTimeouts.
  induction fired as [|x fired IH]; intros cl; simpl.
  - split; [by split|by intros [? _]].
  - rewrite IH, elem_of_classList_remove, Forall_cons. intuition congruence.
Qed.

(** What a click leaves behind. *)
Lemma click_fields (ok : bool) (p : Page) :
  let cls := if ok then "copied" else "copy-error" in
  now (click ok p) = now p
  ∧ classList (click ok p) = classList_add cls (classList p)
  ∧ timeouts (click ok p)
    = (timeouts p ++ [{| due := now p + feedbackDelay; removes := cls |}])%list.
Proof. done. Qed.

Lemma Forall_filter_due (P : Timeout -> Prop) (t : Z) (ts : list Timeout) :
  Forall P (filter (fun x => due x <= t) ts)
  <-> Forall (fun x => due x <= t -> P x) ts.
Proof.
  induction ts as [|x ts IH]; [by split; constructor|].
  rewrite filter_cons. destruct (decide (due x <= t)) as [Hx|Hx].
  - rewrite !Forall_cons, IH. tauto.
  - rewrite Forall_cons, IH. tauto.
Qed.

(** A class is on the button after [d] ms iff it was on it and no timeout
    that removes it came due. *)
Lemma elem_of_elapse (c : string) (d : Z) (p : Page) :
  c ∈ classList (elapse d p)
  <-> c ∈ classList p
      ∧ Forall (fun x => due x <= now p + d -> removes x ≠ c) (timeouts p).
Proof.
  unfold elapse. simpl. by rewrite runTimeouts_removes, Forall_filter_due.
Qed.

(** C3, as the code has it.  On a page with no timeout pending, the class
    applied by a click is on the button for exactly 2000 ms.  A second
    click, whatever its outcome, [d1] < 2000 ms after the first does not
    restart anything: the class of the first click leaves 2000 ms after the
    FIRST click, that is [d1 + d2 < 2000] decides whether it is still there
    [d2] ms after the second. *)
Theorem feedback_ends_after_first_click (p : Page) (ok1 ok2 : bool) (d1 d2 : Z) :
  timeouts p = [] -> 0 <= d1 -> 0 <= d2 ->
  let cls := if ok1 then "copied" else "copy-error" in
  (cls ∈ classList (elapse d1 (click ok1 p)) <-> d1 < 2000)
  ∧ (d1 < 2000 ->
     (cls ∈ classList (elapse d2 (click ok2 (elapse d1 (click ok1 p))))
      <-> d1 + d2 < 2000)).
Proof.
  intros Hts Hd1 Hd2 cls.
  destruct (click_fields ok1 p) as (Hnow & Hcl & Htimeouts).
  fold cls in Hcl, Htimeouts. rewrite Hts, app_nil_l in Htimeouts.
  unfold feedbackDelay in Htimeouts.
  assert (cls ∈ classList (click ok1 p)) as Hin.
  { rewrite Hcl. apply elem_of_classList_add. by right. }
  split.
  - rewrite elem_of_elapse, Htimeouts, Hnow, Forall_singleton. simpl.
    split; [intros [_ H]|intros H; split; [done|lia]].
    destruct (decide (d1 < 2000)); [done|]. exfalso. apply H; [lia|done].
  - intros Hlt.
    destruct (elapse_waiting d1 (click ok1 p)) as [Hcl1 Hts1].
    { rewrite Htimeouts, Hnow. apply Forall_singleton. simpl. lia. }
    assert (now (elapse d1 (click ok1 p)) = now p + d1) as Hnow1.
    { unfold elapse. simpl. done. }
    destruct (click_fields ok2 (elapse d1 (click ok1 p))) as (Hnow2 & Hcl2 & Hts2).
    rewrite elem_of_elapse, Hnow2, Hcl2, Hts2, Hts1, Htimeouts, Hcl1, Hnow1.
    rewrite elem_of_classList_add. unfold feedbackDelay.
    rewrite Forall_app, !Forall_singleton. simpl.
    split.
    + intros (_ & H1 & _).
      destruct (decide (d1 + d2 < 2000)); [done|]. exfalso. apply H1; [lia|done].
    + intros H. split; [by left|]. repeat split; intros; lia.
Qed.

Lemma feedback_ends_after_first_click_witness :
  ("copied" ∈ classList (elapse 1000 (click true (page0 "@misc{tos}")))
   <-> 1000 < 2000)
  ∧ (1000 < 2000 ->
     ("copied" ∈ classList
        (elapse 1500 (click true (elapse 1000 (click true (page0 "@misc{tos}")))))
      <-> 1000 + 1500 < 2000)).
Proof.
  apply (feedback_ends_after_first_click (page0 "@misc{tos}") true true 1000 1500).
  - reflexivity.
  - lia.
  - lia.
Defined.

(** C3, as the specification words it, fails: clicks at 0 ms and at
    1000 ms, both copied; 1500 ms after the second click, when the restarted
    timer of the claim would still have 500 ms to run, the class is gone.
    It went at 2000 ms, as [timeline] shows in steps of 500 ms. *)
Lemma second_click_does_not_restart :
  let p1 := elapse 1000 (click true (page0 "@misc{tos}")) in
  let p2 := click true p1 in
  let timeline := (fun d => (now (elapse d p2), shows "copied" (elapse d p2)))
                    <$> [0; 500; 1000; 1500; 2000] in
  shows "copied" p1 = true
  ∧ shows "copied" (elapse 1500 p2) = false
  ∧ timeline = [(1000, true); (1500, true); (2000, false); (2500, false);
                (3000, false)].
Proof. vm_compute. done. Qed.

End CitationCopyFacts.

(** ** TrajectoryViewer: navigation *)

Module TrajectoryViewerFacts.
Import TrajectoryViewer.

(** [currentTrajectory] reads the ids and the loaded data, nothing else. *)
Lemma currentTrajectory_ext (m m' : Model) :
  taskData m' = taskData m ->
  currentTaskId m' = currentTaskId m ->
  currentTrajectoryId m' = currentTrajectoryId m ->
  currentTrajectory m' = currentTrajectory m.
Proof. intros H1 H2 H3. unfold currentTrajectory. by rewrite H1, H2, H3. Qed.

Lemma lookup_imap_markSteps (stepIndex : Z) (markers : list Marker) (k : nat) :
  markSteps stepIndex markers !! k
  = (fun stepEl =>
       {| style_left := style_left stepEl; index := index stepEl;
          className :=
            if Z.of_nat k <? stepIndex then "timeline-step completed"
            else if Z.of_nat k =? stepIndex then "timeline-step active"
            else "timeline-step" |}) <$> markers !! k.
Proof. unfold markSteps. by rewrite list_lookup_imap. Qed.

Lemma markSteps_idem (stepIndex : Z) (markers : list Marker) :
  markSteps stepIndex (markSteps stepIndex markers) = markSteps stepIndex markers.
Proof.
  apply list_eq. intros k. rewrite !lookup_imap_markSteps.
  by destruct (markers !! k).
Qed.

Lemma length_markSteps (stepIndex : Z) (markers : list Marker) :
  length (markSteps stepIndex markers) = length markers.
Proof. unfold markSteps. by rewrite length_imap. Qed.

Lemma updateTimeline_idem (stepIndex totalSteps : Z) (t : Timeline) :
  updateTimeline stepIndex totalSteps (updateTimeline stepIndex totalSteps t)
  = updateTimeline stepIndex totalSteps t.
Proof. destruct t; simpl; [done..|]. by rewrite markSteps_idem. Qed.

(** What [navigateToStep] does not touch. *)
Lemma navigateToStep_frame (i : Z) (m : Model) :
  availableTasks (navigateToStep i m) = availableTasks m
  ∧ taskData (navigateToStep i m) = taskData m
  ∧ currentTaskId (navigateToStep i m) = currentTaskId m
  ∧ currentTrajectoryId (navigateToStep i m) = currentTrajectoryId m
  ∧ isPlaying (navigateToStep i m) = isPlaying m
  ∧ playInterval (navigateToStep i m) = playInterval m
  ∧ intervals (navigateToStep i m) = intervals m
  ∧ nextHandle (navigateToStep i m) = nextHandle m
  ∧ fetched (navigateToStep i m) = fetched m.
Proof.
  unfold navigateToStep. destruct (currentTrajectory m) as [tr|]; [|done].
  destruct (_ || _); [done|].
  by destruct (Trajectory.steps tr !! Z.to_nat i).
Qed.

Lemma currentTrajectory_navigateToStep (i : Z) (m : Model) :
  currentTrajectory (navigateToStep i m) = currentTrajectory m.
Proof.
  destruct (navigateToStep_frame i m) as (_ & H1 & H2 & H3 & _).
  by apply currentTrajectory_ext.
Qed.

(** Inside the bounds, [navigateToStep] makes [i] the current step. *)
Lemma navigateToStep_in_range (i : Z) (m : Model) (tr : Trajectory.t) :
  currentTrajectory m = Some tr ->
  0 <= i < Z.of_nat (length (Trajectory.steps tr)) ->
  currentStepIndex (navigateToStep i m) = i.
Proof.
  intros Htr Hi. unfold navigateToStep. rewrite Htr.
  destruct (lookup_lt_is_Some_2 (Trajectory.steps tr) (Z.to_nat i)) as [st Hst];
    [lia|].
  rewrite Hst. zcases; done.
Qed.

Lemma navigateToStep_out_of_range (i : Z) (m : Model) (tr : Trajectory.t) :
  currentTrajectory m = Some tr ->
  i < 0 ∨ Z.of_nat (length (Trajectory.steps tr)) - 1 < i ->
  navigateToStep i m = m.
Proof.
  intros Htr Hi. unfold navigateToStep. rewrite Htr. zcases; done.
Qed.

Lemma navigateToStep_idem (i : Z) (m : Model) :
  navigateToStep i (navigateToStep i m) = navigateToStep i m.
Proof.
  pose proof (currentTrajectory_navigateToStep i m) as Hcur.
  unfold navigateToStep at 1. rewrite Hcur.
  unfold navigateToStep.
  destruct (currentTrajectory m) as [tr|] eqn:Htr; [|done].
  destruct ((i <? 0) || (i >=? _)) eqn:Hout; [done|].
  destruct (Trajectory.steps tr !! Z.to_nat i) as [st|]; [|done].
  simpl. rewrite !assign_assign, updateTimeline_idem. done.
Qed.

(** *** The page and the current step agree in every reachable state *)

Lemma navigateToStep_none (i : Z) (m : Model) :
  currentTrajectory m = None -> navigateToStep i m = m.
Proof. intros Hnone. unfold navigateToStep. by rewrite Hnone. Qed.

(** Inside the bounds, [navigateToStep i] changes nothing exactly when [i]
    is current and the page shows step [i]. *)
Lemma navigateToStep_fixed (i : Z) (m : Model) (tr : Trajectory.t) (step : Step.t) :
  currentTrajectory m = Some tr ->
  0 <= i < Z.of_nat (length (Trajectory.steps tr)) ->
  Trajectory.steps tr !! Z.to_nat i = Some step ->
  navigateToStep i m = m
  <-> currentStepIndex m = i
      ∧ showsStep i (Z.of_nat (length (Trajectory.steps tr))) step (dom m).
Proof.
  intros Htr Hi Hstep. unfold navigateToStep. rewrite Htr, Hstep.
  destruct (Z.ltb_spec i 0) as [?|_]; [lia|].
  destruct (Z.geb_spec i (Z.of_nat (length (Trajectory.steps tr)))) as [?|_]; [lia|].
  simpl. destruct m as [tasks data tid trid cur playing handle d ivs next urls].
  destruct d. simpl. unfold showsStep. simpl. split.
  - intros H. injection H as -> H1 H2 H3 H4 H5 H6 H7 H8. done.
  - intros (-> & H1 & H2 & H3 & H4 & H5 & H6 & H7 & H8).
    by rewrite H1, H2, H3, H4, H5, H6, H7, H8.
Qed.

Lemma synced_none (m : Model) : currentTrajectory m = None -> synced m.
Proof. apply navigateToStep_none. Qed.

Lemma synced_outside (m : Model) (tr : Trajectory.t) :
  currentTrajectory m = Some tr ->
  currentStepIndex m < 0
  ∨ Z.of_nat (length (Trajectory.steps tr)) - 1 < currentStepIndex m ->
  synced m.
Proof. apply navigateToStep_out_of_range. Qed.

(** A change that keeps the current trajectory, the current step and what
    the page shows of a step keeps the agreement. *)
Lemma synced_frame (m m' : Model) :
  currentTrajectory m' = currentTrajectory m ->
  currentStepIndex m' = currentStepIndex m ->
  (∀ i n step, showsStep i n step (dom m) -> showsStep i n step (dom m')) ->
  synced m -> synced m'.
Proof.
  intros Htr Hcur Hshows Hm. unfold synced in *.
  destruct (currentTrajectory m) as [tr|] eqn:Hm_tr;
    [|by apply navigateToStep_none].
  set (n := Z.of_nat (length (Trajectory.steps tr))).
  destruct (decide (0 <= currentStepIndex m < n)) as [Hin|Hout].
  - destruct (lookup_lt_is_Some_2 (Trajectory.steps tr)
                (Z.to_nat (currentStepIndex m))) as [step Hstep]; [lia|].
    apply (navigateToStep_fixed _ m tr step Hm_tr Hin Hstep) in Hm
      as [_ Hm].
    rewrite Hcur.
    apply (navigateToStep_fixed _ m' tr step Htr Hin Hstep).
    split; [done|]. by apply Hshows.
  - apply (navigateToStep_out_of_range _ m' tr Htr). rewrite Hcur.
    fold n. lia.
Qed.

Lemma showsStep_setTimeline (t : Timeline) (i n : Z) (step : Step.t) (d : Dom) :
  (∀ width markers, t ≠ Steps width markers) ->
  showsStep i n step d -> showsStep i n step (setTimeline t d).
Proof.
  intros Ht (_ & H). split; [|exact H].
  simpl. destruct t; try done. by destruct (Ht progressWidth markers).
Qed.

Lemma showsStep_setIcons (play pause : string) (i n : Z) (step : Step.t) (d : Dom) :
  showsStep i n step d -> showsStep i n step (setIcons play pause d).
Proof. done. Qed.

Lemma showsStep_setSelects (tasks trajs : list (string * string)) (i n : Z)
    (step : Step.t) (d : Dom) :
  showsStep i n step d -> showsStep i n step (setSelects tasks trajs d).
Proof. done. Qed.

Lemma synced_navigateToStep (i : Z) (m : Model) :
  synced m -> synced (navigateToStep i m).
Proof.
  intros Hm. unfold synced.
  destruct (currentTrajectory m) as [tr|] eqn:Htr;
    [|by rewrite (navigateToStep_none i m Htr)].
  destruct (decide (0 <= i < Z.of_nat (length (Trajectory.steps tr)))) as [Hin|Hout].
  - rewrite (navigateToStep_in_range i m tr Htr Hin). apply navigateToStep_idem.
  - rewrite (navigateToStep_out_of_range i m tr Htr) by lia. exact Hm.
Qed.

(** [initializeTimeline] ends in [navigateToStep(0)]: either step 0 exists
    and is shown, or the trajectory is empty and no step is in bounds. *)
Lemma synced_initializeTimeline (m : Model) :
  (currentTrajectory m = None -> synced m) -> synced (initializeTimeline m).
Proof.
  intros Hnone. unfold initializeTimeline.
  destruct (currentTrajectory m) as [tr|] eqn:Htr; [|by apply Hnone].
  set (d := {| taskSelect := _ |}).
  assert (currentTrajectory (setDom d m) = Some tr) as Htr'
    by (by rewrite <- Htr).
  destruct (decide (0 < Z.of_nat (length (Trajectory.steps tr)))) as [Hpos|Hzero].
  - unfold synced.
    rewrite (navigateToStep_in_range 0 _ tr Htr') by lia.
    apply navigateToStep_idem.
  - rewrite (navigateToStep_out_of_range 0 _ tr Htr') by lia.
    apply (synced_outside _ tr Htr').
    destruct (decide (currentStepIndex (setDom d m) < 0)); [by left|right; lia].
Qed.

Lemma synced_showLoading (m : Model) : synced m -> synced (showLoading m).
Proof.
  apply synced_frame; [done..|]. intros i n step.
  by apply showsStep_setTimeline.
Qed.

Lemma synced_showErrorMessage (message : string) (m : Model) :
  synced m -> synced (showErrorMessage message m).
Proof.
  apply synced_frame; [done..|]. intros i n step.
  by apply showsStep_setTimeline.
Qed.

Lemma synced_pause (m : Model) : synced m -> synced (pause m).
Proof. apply synced_frame; done. Qed.

Lemma synced_playTrajectory (m : Model) : synced m -> synced (playTrajectory m).
Proof.
  intros Hm. unfold playTrajectory.
  destruct (currentTrajectory m) as [tr|] eqn:Htr; [|done].
  destruct (isPlaying m); [by apply synced_pause|].
  revert Hm. apply synced_frame; done.
Qed.

Lemma synced_tick (h : nat) (m : Model) : synced m -> synced (tick h m).
Proof.
  intros Hm. unfold tick, intervalCallback.
  destruct (intervals m !! h) as [iv|]; [|done].
  destruct (_ <? _); [by apply synced_navigateToStep|by apply synced_pause].
Qed.

Lemma synced_handle (e : Event) (m : Model) : synced m -> synced (handle e m).
Proof.
  intros Hm. destruct e as [| | |x|i|h]; simpl.
  - destruct (_ >? _); [by apply synced_navigateToStep|done].
  - destruct (currentTrajectory m); [|done].
    destruct (_ <? _); [by apply synced_navigateToStep|done].
  - by apply synced_playTrajectory.
  - apply synced_initializeTimeline, synced_none.
  - by apply synced_navigateToStep.
  - by apply synced_tick.
Qed.

Lemma synced_loadTaskData_begin (taskId : string) (m : Model) :
  synced m -> synced (loadTaskData_begin taskId m).1.
Proof.
  intros Hm. unfold loadTaskData_begin.
  destruct (List.find _ _); simpl.
  - apply (synced_frame (showLoading m)); [done..|]. by apply synced_showLoading.
  - by apply synced_showErrorMessage, synced_showLoading.
Qed.

Lemma synced_loadTaskData_resume (taskId : string) (r : Response TaskData.t)
    (m : Model) :
  synced m -> synced (loadTaskData_resume taskId r m).
Proof.
  intros Hm.
  destruct r as [|status text| |data];
    try (by apply synced_showErrorMessage).
  unfold loadTaskData_resume.
  destruct (TaskData.trajectories data) as [|[id tr] trajs] eqn:Htrajs; simpl.
  - apply synced_none. unfold currentTrajectory. simpl.
    destruct (negb _ || negb _); [done|].
    by rewrite lookup_insert_eq, Htrajs.
  - apply synced_initializeTimeline, synced_none.
Qed.

Lemma synced_loadTaskIndex_resume (r : Response TaskIndex.t) (m : Model) :
  synced m -> synced (loadTaskIndex_resume r m).1.
Proof.
  intros Hm.
  destruct r as [|status text| |data]; simpl;
    try (by apply synced_showErrorMessage).
  set (m1 := {| availableTasks := TaskIndex.tasks data |}).
  assert (synced m1) as Hm1 by (revert Hm; apply synced_frame; done).
  destruct (TaskIndex.tasks data) as [|first rest] eqn:Htasks; [done|].
  pose proof (synced_loadTaskData_begin (Task.id first) m1 Hm1) as H.
  by destruct (loadTaskData_begin (Task.id first) m1) as [m2 [url|]].
Qed.

Lemma synced_run (a : Action) (m : Model) : synced m -> synced (run a m).
Proof.
  intros Hm. destruct a as [e| |r|x|taskId r]; simpl.
  - by apply synced_handle.
  - apply (synced_frame (showLoading m)); [done..|]. by apply synced_showLoading.
  - by apply synced_loadTaskIndex_resume.
  - by apply synced_loadTaskData_begin.
  - by apply synced_loadTaskData_resume.
Qed.

Lemma reachable_synced (d : Dom) (m : Model) : reachable d m -> synced m.
Proof.
  induction 1 as [|a m _ IH]; [done|]. by apply synced_run.
Qed.

(** [init] ends in a reachable state, whatever the network answers. *)
Lemma init_reachable (index : Response TaskIndex.t)
    (net : string -> Response TaskData.t) (d : Dom) :
  reachable d (init index net d).
Proof.
  unfold init.
  assert (reachable d (run (IndexArrived index) (run IndexRequested (initial d))))
    as Hm by (do 2 apply reachable_run; apply reachable_initial).
  simpl in Hm.
  destruct (loadTaskIndex_resume index (loadTaskIndex_begin (initial d)))
    as [m [[url taskId]|]]; [|done].
  apply (reachable_run d (TaskDataArrived taskId (net url))), Hm.
Qed.

(** C5.  With a trajectory of [totalSteps] steps loaded, [navigateToStep i]
    changes nothing at all, state variables and page alike, when [i] is
    outside [0, totalSteps - 1].  It is idempotent: inside the bounds it
    makes [i] the current step, and a second call for the same [i] changes
    nothing.  In every state the viewer can reach, the call for the step that
    is current already changes nothing. *)
Theorem navigateToStep_noop_idempotent (d : Dom) (m : Model) (tr : Trajectory.t)
    (i : Z) :
  currentTrajectory m = Some tr ->
  let totalSteps := Z.of_nat (length (Trajectory.steps tr)) in
  (i < 0 ∨ totalSteps - 1 < i -> navigateToStep i m = m)
  ∧ (0 <= i <= totalSteps - 1 -> currentStepIndex (navigateToStep i m) = i)
  ∧ navigateToStep i (navigateToStep i m) = navigateToStep i m
  ∧ (reachable d m -> i = currentStepIndex m -> navigateToStep i m = m).
Proof.
  intros Htr totalSteps. split; [|split; [|split]].
  - by apply navigateToStep_out_of_range.
  - intros Hi. apply (navigateToStep_in_range i m tr Htr). lia.
  - apply navigateToStep_idem.
  - intros Hreach ->. by apply (reachable_synced d).
Qed.

Lemma navigateToStep_noop_idempotent_witness :
  currentTrajectory Demo.loaded = Some Demo.walk
  ∧ navigateToStep 3 Demo.loaded = Demo.loaded
  ∧ currentStepIndex (navigateToStep 2 Demo.loaded) = 2
  ∧ navigateToStep 2 (navigateToStep 2 Demo.loaded) = navigateToStep 2 Demo.loaded
  ∧ navigateToStep 0 Demo.loaded = Demo.loaded.
Proof.
  assert (currentTrajectory Demo.loaded = Some Demo.walk) as Htr
    by (vm_compute; reflexivity).
  split; [exact Htr|].
  destruct (navigateToStep_noop_idempotent Demo.page Demo.loaded Demo.walk 3 Htr)
    as (Hout & _ & _ & _).
  destruct (navigateToStep_noop_idempotent Demo.page Demo.loaded Demo.walk 2 Htr)
    as (_ & Hin & Hidem & _).
  destruct (navigateToStep_noop_idempotent Demo.page Demo.loaded Demo.walk 0 Htr)
    as (_ & _ & _ & Hcurrent).
  split; [|split; [|split]].
  - apply Hout. right. simpl. lia.
  - apply Hin. simpl. lia.
  - exact Hidem.
  - apply Hcurrent; [apply init_reachable|by vm_compute].
Defined.

(** ** TrajectoryViewer: the [totalSteps] field is never read *)

Lemma lookupTrajectory_retotal (n : Z) (id : string)
    (l : list (string * Trajectory.t)) :
  lookupTrajectory id (map (fun '(k, tr) => (k, retotal n tr)) l)
  = retotal n <$> lookupTrajectory id l.
Proof.
  induction l as [|[k tr] l IH]; [done|]. simpl.
  destruct (decide (k = id)); [done|]. apply IH.
Qed.

Lemma currentTrajectory_retotal (n : Z) (m : Model) :
  currentTrajectory (retotalModel n m) = retotal n <$> currentTrajectory m.
Proof.
  unfold currentTrajectory. simpl.
  destruct (negb _ || negb _); [done|].
  rewrite lookup_fmap. destruct (taskData m !! currentTaskId m) as [td|]; [|done].
  simpl. apply lookupTrajectory_retotal.
Qed.

(** Overwriting the field before or after a navigation is the same. *)
Lemma navigateToStep_retotal (n i : Z) (m : Model) :
  navigateToStep i (retotalModel n m) = retotalModel n (navigateToStep i m).
Proof.
  unfold navigateToStep. rewrite currentTrajectory_retotal.
  destruct (currentTrajectory m) as [tr|]; [|done]. simpl.
  destruct (_ || _); [done|].
  by destruct (Trajectory.steps tr !! Z.to_nat i).
Qed.

Lemma initializeTimeline_retotal (n : Z) (m : Model) :
  initializeTimeline (retotalModel n m) = retotalModel n (initializeTimeline m).
Proof.
  unfold initializeTimeline. rewrite currentTrajectory_retotal.
  destruct (currentTrajectory m) as [tr|]; [|done]. simpl.
  by rewrite <- navigateToStep_retotal.
Qed.

Lemma length_stepMarkers (totalSteps : nat) :
  length (stepMarkers totalSteps) = totalSteps.
Proof. unfold stepMarkers. by rewrite length_map, length_seq. Qed.

(** What [initializeTimeline] writes for the current trajectory, before
    and after its closing [navigateToStep(0)]. *)
Lemma initializeTimeline_counts (m : Model) (tr : Trajectory.t) :
  currentTrajectory m = Some tr ->
  let totalSteps := length (Trajectory.steps tr) in
  totalStepsElement (dom (initializeTimeline m))
    = assign (totalStepsElement (dom m)) (pretty totalSteps)
  ∧ totalStepsValueElement (dom (initializeTimeline m))
    = assign (totalStepsValueElement (dom m)) (pretty totalSteps)
  ∧ ∃ width markers,
      timelineStepsContainer (dom (initializeTimeline m)) = Steps width markers
      ∧ length markers = totalSteps.
Proof.
  intros Htr totalSteps. unfold initializeTimeline. rewrite Htr. fold totalSteps.
  set (d := {| taskSelect := _ |}).
  unfold navigateToStep.
  rewrite (currentTrajectory_ext m (setDom d m) eq_refl eq_refl eq_refl), Htr.
  destruct (_ || _).
  { simpl. repeat split. eexists _, _. split; [done|]. apply length_stepMarkers. }
  destruct (Trajectory.steps tr !! Z.to_nat 0).
  - simpl. repeat split. eexists _, _. split; [done|].
    by rewrite length_markSteps, length_stepMarkers.
  - simpl. repeat split. eexists _, _. split; [done|]. apply length_stepMarkers.
Qed.

(** C10.  For the current trajectory [tr] of [m]: the step counter and the
    metrics panel show the length of [tr.steps], the timeline has that many
    markers, and [navigateToStep] accepts exactly the indices below it.
    The [totalSteps] field is not read: a model [m'] that differs from [m]
    in [totalSteps] fields only gets the same page and the same current step
    from [initializeTimeline] and from [navigateToStep]. *)
Theorem steps_length_wins (m m' : Model) (tr : Trajectory.t) (i : Z) :
  currentTrajectory m = Some tr ->
  retotalModel 0 m' = retotalModel 0 m ->
  let totalSteps := length (Trajectory.steps tr) in
  (totalStepsElement (dom (initializeTimeline m))
     = assign (totalStepsElement (dom m)) (pretty totalSteps)
   ∧ totalStepsValueElement (dom (initializeTimeline m))
     = assign (totalStepsValueElement (dom m)) (pretty totalSteps)
   ∧ ∃ width markers,
       timelineStepsContainer (dom (initializeTimeline m)) = Steps width markers
       ∧ length markers = totalSteps)
  ∧ (0 <= i < Z.of_nat totalSteps -> currentStepIndex (navigateToStep i m) = i)
  ∧ (i < 0 ∨ Z.of_nat totalSteps <= i -> navigateToStep i m = m)
  ∧ dom (initializeTimeline m') = dom (initializeTimeline m)
  ∧ currentStepIndex (initializeTimeline m') = currentStepIndex (initializeTimeline m)
  ∧ dom (navigateToStep i m') = dom (navigateToStep i m)
  ∧ currentStepIndex (navigateToStep i m') = currentStepIndex (navigateToStep i m).
Proof.
  intros Htr Hsame totalSteps.
  split; [by apply initializeTimeline_counts|].
  split; [by apply navigateToStep_in_range|].
  split; [intros Hi; apply (navigateToStep_out_of_range i m tr Htr); lia|].
  assert (retotalModel 0 (initializeTimeline m')
          = retotalModel 0 (initializeTimeline m)) as Hinit
    by (by rewrite <- !initializeTimeline_retotal, Hsame).
  assert (retotalModel 0 (navigateToStep i m')
          = retotalModel 0 (navigateToStep i m)) as Hnav
    by (by rewrite <- !navigateToStep_retotal, Hsame).
  repeat split.
  - exact (f_equal dom Hinit).
  - exact (f_equal currentStepIndex Hinit).
  - exact (f_equal dom Hnav).
  - exact (f_equal currentStepIndex Hnav).
Qed.

Lemma steps_length_wins_witness :
  let m' := retotalModel 99 Demo.loaded in
  Trajectory.totalSteps <$> currentTrajectory m' = Some 99
  ∧ Trajectory.totalSteps <$> currentTrajectory Demo.loaded = Some 3
  ∧ totalStepsElement (dom (initializeTimeline m')) = Some "3"
  ∧ navigateToStep 3 Demo.loaded = Demo.loaded.
Proof.
  intros m'.
  assert (currentTrajectory Demo.loaded = Some Demo.walk) as Htr
    by (vm_compute; reflexivity).
  assert (retotalModel 0 m' = retotalModel 0 Demo.loaded) as Hsame
    by (vm_compute; reflexivity).
  destruct (steps_length_wins Demo.loaded m' Demo.walk 3 Htr Hsame)
    as ((Hshown & _) & _ & Hout & Hdom & _).
  split; [by vm_compute|]. split; [by vm_compute|]. split.
  - rewrite Hdom, Hshown. by vm_compute.
  - apply Hout. right. simpl. lia.
Defined.

(** ** TrajectoryViewer: playback *)


(** One firing of a live interval whose captured trajectory has
    [totalSteps] steps: before the last step it navigates one step on, at
    (or after) the last step it runs the pause block. *)
Lemma tick_live (h : nat) (m : Model) (iv : Interval) :
  intervals m !! h = Some iv ->
  let last := Z.of_nat (length (Trajectory.steps (trajectory iv))) - 1 in
  (currentStepIndex m < last ->
     tick h m = navigateToStep (currentStepIndex m + 1) m)
  ∧ (last <= currentStepIndex m -> tick h m = pause m).
Proof.
  intros Hiv last. unfold tick, intervalCallback. rewrite Hiv. fold last.
  split; intros H; zcases; done.
Qed.



(** Play pressed while paused on a step of the current trajectory: the
    interval registered is [nextHandle m], and it has captured that
    trajectory. *)
Lemma playing_at_play (m : Model) (tr : Trajectory.t) :
  currentTrajectory m = Some tr ->
  isPlaying m = false ->
  0 <= currentStepIndex m < Z.of_nat (length (Trajectory.steps tr)) ->
  playing_at tr (nextHandle m) (currentStepIndex m) 0 (playTrajectory m).
Proof.
  intros Htr Hpaused Hcur. unfold playing_at, playTrajectory.
  rewrite Htr, Hpaused.
  destruct (Z.leb_spec (currentStepIndex m + Z.of_nat 0)
                       (Z.of_nat (length (Trajectory.steps tr)) - 1)); [|lia].
  repeat split; first [exact Htr | simpl; lia | apply lookup_insert_eq].
Qed.

(** ** TrajectoryViewer: loading a task *)

Lemma initializeTimeline_frame (m : Model) :
  availableTasks (initializeTimeline m) = availableTasks m
  ∧ taskData (initializeTimeline m) = taskData m
  ∧ currentTaskId (initializeTimeline m) = currentTaskId m
  ∧ currentTrajectoryId (initializeTimeline m) = currentTrajectoryId m
  ∧ isPlaying (initializeTimeline m) = isPlaying m
  ∧ playInterval (initializeTimeline m) = playInterval m
  ∧ intervals (initializeTimeline m) = intervals m
  ∧ nextHandle (initializeTimeline m) = nextHandle m
  ∧ fetched (initializeTimeline m) = fetched m.
Proof.
  unfold initializeTimeline. destruct (currentTrajectory m) as [tr|]; [|done].
  set (d := {| taskSelect := _ |}).
  apply (navigateToStep_frame 0 (setDom d m)).
Qed.

(** A response that carries data is stored under the task id, over
    whatever was stored there, and no request goes out any more. *)
Lemma loadTaskData_resume_stores (taskId : string) (data : TaskData.t) (m : Model) :
  taskData (loadTaskData_resume taskId (Json data) m) = <[taskId := data]> (taskData m)
  ∧ currentTaskId (loadTaskData_resume taskId (Json data) m) = taskId
  ∧ fetched (loadTaskData_resume taskId (Json data) m) = fetched m.
Proof.
  unfold loadTaskData_resume.
  destruct (map _ (TaskData.trajectories data)) as [|[value text] options]; [done|].
  set (stored := {| availableTasks := _ |}).
  destruct (initializeTimeline_frame stored) as (_ & -> & -> & _ & _ & _ & _ & _ & ->).
  done.
Qed.

(** Any other response leaves the error message and nothing else. *)
Lemma loadTaskData_resume_fails (taskId : string) (r : Response TaskData.t)
    (m : Model) :
  (∀ data, r ≠ Json data) ->
  loadTaskData_resume taskId r m = showErrorMessage (taskDataError taskId) m.
Proof. intros Hr. destruct r; [done..|]. by destruct (Hr data). Qed.

(** C1, as the code has it.  [loadTaskData] for a task of the index sends
    one request for the task's data file, whatever [taskData] holds for the
    task already; a response with data is stored under the task id,
    replacing an earlier entry. *)
Theorem loadTaskData_always_fetches (net : string -> Response TaskData.t)
    (taskId : string) (m : Model) (taskInfo : Task.t) :
  List.find (fun task => bool_decide (Task.id task = taskId)) (availableTasks m)
    = Some taskInfo ->
  fetched (loadTaskData net taskId m) = (fetched m ++ [Task.dataFile taskInfo])%list
  ∧ ∀ data, net (Task.dataFile taskInfo) = Json data ->
            taskData (loadTaskData net taskId m) = <[taskId := data]> (taskData m).
Proof.
  intros Hfind. unfold loadTaskData, loadTaskData_begin. simpl. rewrite Hfind.
  set (m1 := fetch _ _). split.
  - destruct (net (Task.dataFile taskInfo)) as [|status text| |data]; try done.
    by destruct (loadTaskData_resume_stores taskId data m1) as (_ & _ & ->).
  - intros data ->.
    by destruct (loadTaskData_resume_stores taskId data m1) as (-> & _ & _).
Qed.

Lemma loadTaskData_always_fetches_witness :
  is_Some (taskData Demo.loaded !! "rooms")
  ∧ fetched (loadTaskData Demo.net "rooms" Demo.loaded)
    = (fetched Demo.loaded ++ ["/data/rooms.json"])%list.
Proof.
  split; [by vm_compute; eexists|].
  destruct (loadTaskData_always_fetches Demo.net "rooms" Demo.loaded
              {| Task.id := "rooms"; Task.name := "Rooms"; Task.description := "";
                 Task.dataFile := "/data/rooms.json"; Task.thumbnail := "" |})
    as [Hfetched _]; [by vm_compute|].
  exact Hfetched.
Defined.

(** C1, as the specification words it, fails: the task ["rooms"] is
    loaded and stored, it is selected again, and its data file is requested
    a second time. *)
Lemma loadTaskData_fetches_again :
  taskData Demo.loaded !! "rooms" = Some Demo.rooms
  ∧ fetched Demo.loaded = [indexUrl; "/data/rooms.json"]
  ∧ fetched (loadTaskData Demo.net "rooms" Demo.loaded)
    = [indexUrl; "/data/rooms.json"; "/data/rooms.json"].
Proof. by vm_compute. Qed.

(** C8.  When the task is not in the index, or the request for its data
    file ends in anything but parsed data (network error, HTTP error,
    parse error), [loadTaskData] leaves [taskData] as it was, so every
    entry stored before is unchanged and none is stored for the task;
    the other state variables and the timers are unchanged too, and the
    page differs by the error message only. *)
Theorem loadTaskData_failure_keeps_state (net : string -> Response TaskData.t)
    (taskId : string) (m : Model) :
  (∀ taskInfo data,
     List.find (fun task => bool_decide (Task.id task = taskId)) (availableTasks m)
       = Some taskInfo ->
     net (Task.dataFile taskInfo) ≠ Json data) ->
  let m' := loadTaskData net taskId m in
  taskData m' = taskData m
  ∧ availableTasks m' = availableTasks m
  ∧ currentTaskId m' = currentTaskId m
  ∧ currentTrajectoryId m' = currentTrajectoryId m
  ∧ currentStepIndex m' = currentStepIndex m
  ∧ isPlaying m' = isPlaying m
  ∧ playInterval m' = playInterval m
  ∧ intervals m' = intervals m
  ∧ nextHandle m' = nextHandle m
  ∧ dom m' = setTimeline (ErrorMessage (taskDataError taskId)) (dom m).
Proof.
  intros Hfail m'. subst m'. unfold loadTaskData, loadTaskData_begin. simpl.
  destruct (List.find _ (availableTasks m)) as [taskInfo|] eqn:Hfind; [|done].
  rewrite loadTaskData_resume_fails; [done|].
  intros data. by apply Hfail.
Qed.

Lemma loadTaskData_failure_keeps_state_witness :
  let m' := loadTaskData Demo.net "gone" Demo.loaded in
  Demo.net "/data/gone.json" = HttpError 404 "Not Found"
  ∧ taskData m' = taskData Demo.loaded
  ∧ taskData m' !! "gone" = None
  ∧ timelineStepsContainer (dom m')
    = ErrorMessage "Failed to load data for gone. Please try again later.".
Proof.
  intros m'.
  destruct (loadTaskData_failure_keeps_state Demo.net "gone" Demo.loaded)
    as (Hdata & _ & _ & _ & _ & _ & _ & _ & _ & Hdom).
  { intros taskInfo data Hfind. vm_compute in Hfind.
    injection Hfind as <-. vm_compute. discriminate. }
  fold m' in Hdata, Hdom.
  split; [by vm_compute|]. split; [exact Hdata|]. split.
  - rewrite Hdata. by vm_compute.
  - by rewrite Hdom.
Defined.

(** ** TrajectoryViewer: where the markers are put *)

(** Marker [i] of [totalSteps] is put at [(i / (totalSteps - 1)) * 100]. *)
Lemma stepMarkers_lookup (totalSteps i : nat) :
  (i < totalSteps)%nat ->
  stepMarkers totalSteps !! i
  = Some {| style_left := percentage (Z.of_nat i) (Z.of_nat totalSteps);
            index := i; className := "timeline-step" |}.
Proof.
  intros Hi. unfold stepMarkers.
  change (map ?f ?l) with (f <$> l).
  rewrite list_lookup_fmap, lookup_seq_lt by done. done.
Qed.

Example stepMarkers_three :
  style_left <$> stepMarkers 3 = [number 0; number 50; number 100].
Proof. by vm_compute. Qed.

Lemma style_left_markSteps (stepIndex : Z) (markers : list Marker) :
  style_left <$> markSteps stepIndex markers = style_left <$> markers.
Proof.
  apply list_eq. intros k.
  rewrite !list_lookup_fmap, lookup_imap_markSteps.
  by destruct (markers !! k).
Qed.

(** [initializeTimeline] puts marker [i] of the current trajectory at
    [(i / (totalSteps - 1)) * 100], for every [i] below [totalSteps]. *)
Lemma initializeTimeline_markers (m : Model) (tr : Trajectory.t) :
  currentTrajectory m = Some tr ->
  let totalSteps := length (Trajectory.steps tr) in
  ∃ width markers,
    timelineStepsContainer (dom (initializeTimeline m)) = Steps width markers
    ∧ style_left <$> markers
      = (fun i => percentage (Z.of_nat i) (Z.of_nat totalSteps)) <$> seq 0 totalSteps.
Proof.
  intros Htr totalSteps.
  assert (style_left <$> stepMarkers totalSteps
          = (fun i => percentage (Z.of_nat i) (Z.of_nat totalSteps))
              <$> seq 0 totalSteps) as Hleft.
  { unfold stepMarkers. change (map ?f ?l) with (f <$> l).
    rewrite <- list_fmap_compose. done. }
  unfold initializeTimeline. rewrite Htr. fold totalSteps.
  set (d := {| taskSelect := _ |}).
  unfold navigateToStep.
  rewrite (currentTrajectory_ext m (setDom d m) eq_refl eq_refl eq_refl), Htr.
  destruct (_ || _); [by eexists _, _|].
  destruct (Trajectory.steps tr !! Z.to_nat 0); [|by eexists _, _].
  simpl. eexists _, _. split; [done|]. by rewrite style_left_markSteps.
Qed.

(** With one step the quotient is [0 / 0]: the marker and the progress
    bar get NaN, whatever the trajectory and the page are. *)
Lemma initializeTimeline_single_step (m : Model) (tr : Trajectory.t) :
  currentTrajectory m = Some tr ->
  length (Trajectory.steps tr) = 1%nat ->
  timelineStepsContainer (dom (initializeTimeline m))
  = Steps nan [ {| style_left := nan; index := 0;
                   className := "timeline-step active" |} ].
Proof.
  intros Htr Hone. unfold initializeTimeline. rewrite Htr, Hone.
  set (d := {| taskSelect := _ |}).
  unfold navigateToStep.
  rewrite (currentTrajectory_ext m (setDom d m) eq_refl eq_refl eq_refl), Htr.
  rewrite Hone.
  destruct (Trajectory.steps tr) as [|st [|? ?]] eqn:Hsteps; try done.
Qed.

(** C2 on a trajectory with exactly one step (["glance"] of the sample
    site): nothing guards the division, [0 / (1 - 1)] is NaN, NaN times 100
    is NaN, and that, not 0, is what the sole marker gets for its left edge
    and the progress bar for its width. *)
Theorem single_step_marker_is_NaN :
  let m := initializeTimeline (setTrajectoryId "glance" Demo.loaded) in
  length (Trajectory.steps Demo.glance) = 1%nat
  ∧ currentTrajectory m = Some Demo.glance
  ∧ timelineStepsContainer (dom m)
    = Steps nan [ {| style_left := nan; index := 0;
                     className := "timeline-step active" |} ]
  ∧ PrimFloat.is_nan (percentage 0 1) = true
  ∧ PrimFloat.eqb (percentage 0 1) (number 0) = false.
Proof. by vm_compute. Qed.

End TrajectoryViewerFacts.

(** ** DatasetViewer: runs of the viewer *)

Module DatasetViewerRuns.
Import DatasetViewer.

Lemma indexOf_elem (x : string) (l : list string) :
  x ∈ l -> ∃ i : nat, indexOf x l = Z.of_nat i ∧ l !! i = Some x.
Proof.
  induction l as [|y l IH]; intros Hx; [by apply elem_of_nil in Hx|].
  simpl. destruct (decide (y = x)) as [->|Hne].
  - by exists 0%nat.
  - apply elem_of_cons in Hx as [->|Hx]; [done|].
    destruct (IH Hx) as (i & -> & Hi). exists (S i). split; [|done].
    destruct (Z.ltb_spec (Z.of_nat i) 0); lia.
Qed.

Lemma updateUI_fields (v : Viewer) :
  allData (updateUI v) = allData v
  ∧ filteredData (updateUI v) = filteredData v
  ∧ currentLayout (updateUI v) = currentLayout v
  ∧ availableLayouts (updateUI v) = availableLayouts v
  ∧ dataDisplay (updateUI v) = assign (dataDisplay v) (rendering (filteredData v)).
Proof.
  unfold updateUI. destruct (dataDisplay v) eqn:Hd; [|by rewrite Hd].
  destruct (filteredData v) eqn:Hf; simpl; by rewrite ?Hf.
Qed.

Lemma filterData_fields (v : Viewer) :
  allData (filterData v) = allData v
  ∧ filteredData (filterData v) = matching v
  ∧ currentLayout (filterData v) = currentLayout v
  ∧ availableLayouts (filterData v) = availableLayouts v
  ∧ dataDisplay (filterData v) = dataDisplay v.
Proof. unfold filterData, matching. by destruct (truthy (currentLayout v)). Qed.

(** [filterData] and then [updateUI] settle the viewer on the layout that
    is current, whatever was filtered and shown before. *)
Lemma filter_then_update (v : Viewer) :
  allData (updateUI (filterData v)) = allData v
  ∧ currentLayout (updateUI (filterData v)) = currentLayout v
  ∧ availableLayouts (updateUI (filterData v)) = availableLayouts v
  ∧ dataDisplay (updateUI (filterData v))
    = assign (dataDisplay v) (rendering (matching v))
  ∧ settled (updateUI (filterData v)).
Proof.
  destruct (updateUI_fields (filterData v)) as (Ha & Hf & Hc & Hl & Hd).
  destruct (filterData_fields v) as (Ha' & Hf' & Hc' & Hl' & Hd').
  assert (matching (updateUI (filterData v)) = matching v) as Hm
    by (unfold matching; by rewrite Ha, Hc, Ha', Hc').
  split; [congruence|]. split; [congruence|]. split; [congruence|].
  split; [by rewrite Hd, Hf', Hd'|].
  split; [by rewrite Hm, Hf|].
  by rewrite Hm, Hd, Hf', Hd', assign_assign.
Qed.

Lemma wrapIndex_cases (len newIndex : Z) :
  0 < len ->
  (newIndex < 0 -> wrapIndex len newIndex = len - 1)
  ∧ (len <= newIndex -> wrapIndex len newIndex = 0)
  ∧ (0 <= newIndex < len -> wrapIndex len newIndex = newIndex).
Proof. intros Hlen. unfold wrapIndex. repeat split; intros H; zcases. Qed.

(** One navigation from position [i], whatever the direction is. *)
Lemma navigateLayout_at (v : Viewer) (i : nat) (direction : Z) :
  indexOf (currentLayout v) (availableLayouts v) = Z.of_nat i ->
  availableLayouts v !! i = Some (currentLayout v) ->
  availableLayouts (navigateLayout direction v) = availableLayouts v
  ∧ allData (navigateLayout direction v) = allData v
  ∧ availableLayouts v
      !! Z.to_nat (wrapIndex (Z.of_nat (length (availableLayouts v)))
                             (Z.of_nat i + direction))
    = Some (currentLayout (navigateLayout direction v)).
Proof.
  intros Hidx Hi. unfold navigateLayout. rewrite Hidx.
  destruct (Z.eqb_spec (Z.of_nat i) (-1)) as [?|_]; [lia|].
  set (k := wrapIndex _ _).
  assert (0 <= k < Z.of_nat (length (availableLayouts v))) as Hk.
  { apply DatasetViewerFacts.navigateLayout_index_in_range.
    apply lookup_lt_Some in Hi. lia. }
  destruct (lookup_lt_is_Some_2 (availableLayouts v) (Z.to_nat k)) as [x Hx];
    [lia|].
  rewrite Hx. simpl.
  set (v1 := updateFilterUI _).
  by destruct (filter_then_update v1) as (-> & -> & -> & _).
Qed.

(** X1.  [navigateLayout] keeps the current layout among the available
    layouts, for every integer it is given as direction: the layout it
    selects is an entry of the list, never [undefined], and the list itself
    is unchanged. *)
Theorem navigateLayout_stays_inside (v : Viewer) (direction : Z) :
  currentLayout v ∈ availableLayouts v ->
  availableLayouts (navigateLayout direction v) = availableLayouts v
  ∧ currentLayout (navigateLayout direction v) ∈ availableLayouts v.
Proof.
  intros Hin. destruct (indexOf_elem _ _ Hin) as (i & Hidx & Hi).
  destruct (navigateLayout_at v i direction Hidx Hi) as (Hl & _ & Hnew).
  split; [done|]. by eapply list_elem_of_lookup_2.
Qed.

Lemma navigateLayout_stays_inside_witness :
  availableLayouts (navigateLayout 7 Demo.viewer) = availableLayouts Demo.viewer
  ∧ currentLayout (navigateLayout 7 Demo.viewer) ∈ availableLayouts Demo.viewer.
Proof.
  apply (navigateLayout_stays_inside Demo.viewer 7).
  apply (bool_decide_unpack _). by vm_compute.
Defined.

(** X2.  On layouts without repetition, "next" followed by "previous"
    selects the layout that was current, and so does "previous" followed by
    "next", at the ends of the list as in the middle. *)
Theorem navigateLayout_round_trip (v : Viewer) (i : nat) :
  NoDup (availableLayouts v) ->
  availableLayouts v !! i = Some (currentLayout v) ->
  currentLayout (navigateLayout (-1) (navigateLayout 1 v)) = currentLayout v
  ∧ currentLayout (navigateLayout 1 (navigateLayout (-1) v)) = currentLayout v.
Proof.
  intros Hnd Hi.
  pose proof (lookup_lt_Some _ _ _ Hi) as Hlt.
  assert (∀ d1 d2,
            Z.to_nat (wrapIndex (Z.of_nat (length (availableLayouts v)))
                        (Z.of_nat (Z.to_nat
                           (wrapIndex (Z.of_nat (length (availableLayouts v)))
                                      (Z.of_nat i + d1))) + d2)) = i ->
            currentLayout (navigateLayout d2 (navigateLayout d1 v))
            = currentLayout v) as Hback.
  { intros d1 d2 Hidx.
    destruct (DatasetViewerFacts.navigateLayout_current v i d1 Hnd Hi)
      as [Hl1 H1].
    set (v1 := navigateLayout d1 v) in *.
    set (j := Z.to_nat (wrapIndex _ (Z.of_nat i + d1))) in *.
    assert (NoDup (availableLayouts v1)) as Hnd1 by (by rewrite Hl1).
    assert (availableLayouts v1 !! j = Some (currentLayout v1)) as H1'
      by (by rewrite Hl1).
    destruct (DatasetViewerFacts.navigateLayout_current v1 j d2 Hnd1 H1')
      as [_ H2].
    rewrite Hl1, Hidx, Hi in H2. by injection H2. }
  set (n := Z.of_nat (length (availableLayouts v))) in *.
  assert (0 < n) as Hn by lia.
  split; apply Hback.
  - destruct (decide (Z.of_nat i + 1 < n)) as [Hmid|Hlast].
    + destruct (wrapIndex_cases n (Z.of_nat i + 1) Hn) as (_ & _ & ->); [|lia].
      destruct (wrapIndex_cases n (Z.of_nat (Z.to_nat (Z.of_nat i + 1)) + -1) Hn)
        as (_ & _ & ->); lia.
    + destruct (wrapIndex_cases n (Z.of_nat i + 1) Hn) as (_ & -> & _); [|lia].
      destruct (wrapIndex_cases n (Z.of_nat (Z.to_nat 0) + -1) Hn)
        as (-> & _ & _); lia.
  - destruct (decide (0 < Z.of_nat i)) as [Hmid|Hfirst].
    + destruct (wrapIndex_cases n (Z.of_nat i + -1) Hn) as (_ & _ & ->); [|lia].
      destruct (wrapIndex_cases n (Z.of_nat (Z.to_nat (Z.of_nat i + -1)) + 1) Hn)
        as (_ & _ & ->); lia.
    + destruct (wrapIndex_cases n (Z.of_nat i + -1) Hn) as (-> & _ & _); [|lia].
      destruct (wrapIndex_cases n (Z.of_nat (Z.to_nat (n - 1)) + 1) Hn)
        as (_ & -> & _); lia.
Qed.

Lemma navigateLayout_round_trip_witness :
  currentLayout Demo.viewer = "2room_loop"
  ∧ currentLayout (navigateLayout 1 Demo.viewer) = "3room"
  ∧ currentLayout (navigateLayout (-1) Demo.viewer) = "4room"
  ∧ currentLayout (navigateLayout (-1) (navigateLayout 1 Demo.viewer))
    = currentLayout Demo.viewer
  ∧ currentLayout (navigateLayout 1 (navigateLayout (-1) Demo.viewer))
    = currentLayout Demo.viewer.
Proof.
  split; [by vm_compute|]. split; [by vm_compute|]. split; [by vm_compute|].
  apply (navigateLayout_round_trip Demo.viewer 0).
  - apply (bool_decide_unpack _). by vm_compute.
  - by vm_compute.
Defined.

(** [k] times "next" from position [i] lead to position [(i + k) mod n]. *)
Lemma navigateLayout_next_steps (v : Viewer) (i k : nat) :
  NoDup (availableLayouts v) ->
  availableLayouts v !! i = Some (currentLayout v) ->
  availableLayouts (Nat.iter k (navigateLayout 1) v) = availableLayouts v
  ∧ availableLayouts v !! ((i + k) `mod` length (availableLayouts v))%nat
    = Some (currentLayout (Nat.iter k (navigateLayout 1) v)).
Proof.
  intros Hnd Hi. pose proof (lookup_lt_Some _ _ _ Hi) as Hlt.
  set (n := length (availableLayouts v)) in *.
  induction k as [|k [IHl IHk]].
  - simpl. split; [done|]. by rewrite Nat.add_0_r, Nat.mod_small.
  - simpl. set (vk := Nat.iter k (navigateLayout 1) v) in *.
    set (r := ((i + k) `mod` n)%nat) in *.
    assert (r < n)%nat as Hr by (apply Nat.mod_upper_bound; lia).
    assert (NoDup (availableLayouts vk)) as Hndk by (by rewrite IHl).
    assert (availableLayouts vk !! r = Some (currentLayout vk)) as Hk
      by (by rewrite IHl).
    destruct (DatasetViewerFacts.navigateLayout_current vk r 1 Hndk Hk)
      as [Hl Hnext].
    rewrite IHl in Hl, Hnext. fold n in Hnext. split; [done|].
    rewrite <- Hnext. f_equal.
    replace (i + S k)%nat with (i + k + 1)%nat by lia.
    rewrite <- Nat.Div0.add_mod_idemp_l. fold r.
    destruct (decide (r + 1 < n)%nat) as [Hmid|Hlast].
    + rewrite Nat.mod_small by done.
      destruct (wrapIndex_cases (Z.of_nat n) (Z.of_nat r + 1)) as (_ & _ & ->);
        lia.
    + replace (r + 1)%nat with n by lia. rewrite Nat.Div0.mod_same.
      destruct (wrapIndex_cases (Z.of_nat n) (Z.of_nat r + 1)) as (_ & -> & _);
        lia.
Qed.

(** X3.  On [n] layouts without repetition, [k] times "next" from the
    [i]-th layout select the layout at position [(i + k) mod n]: every
    layout is shown once in [n] steps, and the [n]-th step is back on the
    layout the round began with. *)
Theorem navigateLayout_cycle (v : Viewer) (i k : nat) :
  NoDup (availableLayouts v) ->
  availableLayouts v !! i = Some (currentLayout v) ->
  let n := length (availableLayouts v) in
  availableLayouts v !! ((i + k) `mod` n)%nat
    = Some (currentLayout (Nat.iter k (navigateLayout 1) v))
  ∧ currentLayout (Nat.iter n (navigateLayout 1) v) = currentLayout v.
Proof.
  intros Hnd Hi n. pose proof (lookup_lt_Some _ _ _ Hi) as Hlt.
  split; [by apply navigateLayout_next_steps|].
  destruct (navigateLayout_next_steps v i n Hnd Hi) as [_ Hn].
  fold n in Hn.
  replace ((i + n) `mod` n)%nat with i in Hn.
  - rewrite Hi in Hn. by injection Hn.
  - rewrite <- Nat.Div0.add_mod_idemp_r, Nat.Div0.mod_same, Nat.add_0_r.
    by rewrite Nat.mod_small.
Qed.

Lemma navigateLayout_cycle_witness :
  (fun k => currentLayout (Nat.iter k (navigateLayout 1) Demo.viewer))
    <$> [0; 1; 2; 3; 4]%nat
  = ["2room_loop"; "3room"; "4room"; "2room_loop"; "3room"]
  ∧ availableLayouts Demo.viewer !! ((0 + 5) `mod` 3)%nat
    = Some (currentLayout (Nat.iter 5 (navigateLayout 1) Demo.viewer)).
Proof.
  split; [by vm_compute|].
  apply (navigateLayout_cycle Demo.viewer 0 5).
  - apply (bool_decide_unpack _). by vm_compute.
  - by vm_compute.
Defined.

(** Every listener leaves the loaded records alone, and either does
    nothing or ends in [filterData] and [updateUI]. *)
Lemma handle_settles (e : Event) (v : Viewer) :
  handle e v = v
  ∨ ∃ v', handle e v = updateUI (filterData v')
          ∧ allData v' = allData v ∧ dataDisplay v' = dataDisplay v.
Proof.
  assert (∀ direction,
            navigateLayout direction v = v
            ∨ ∃ v', navigateLayout direction v = updateUI (filterData v')
                    ∧ allData v' = allData v ∧ dataDisplay v' = dataDisplay v)
    as Hnav.
  { intros direction. unfold navigateLayout.
    destruct (_ =? _); [by left|]. right. by eexists. }
  destruct e as [x| | |tag key]; simpl; try apply Hnav.
  - right. by eexists.
  - destruct (_ || _); [by left|].
    destruct (bool_decide (key = "ArrowLeft")); [apply Hnav|].
    destruct (bool_decide (key = "ArrowRight")); [apply Hnav|by left].
Qed.

(** What [init] leaves after a load that succeeded. *)
Lemma init_settled (data : list LayoutSample) (sel : option Select)
    (disp : option Display) :
  let v := init (Some data) (new sel disp) in
  allData v = data
  ∧ filteredData v = matching v
  ∧ dataDisplay v = assign disp (rendering (matching v)).
Proof.
  unfold init.
  set (v0 := populateFilterOptions _).
  assert (allData v0 = data ∧ dataDisplay v0 = disp) as [Ha0 Hd0] by done.
  destruct (filterData_fields v0) as (Ha1 & Hf1 & Hc1 & _ & Hd1).
  set (v1 := filterData v0) in *.
  destruct (updateUI_fields (updateFilterUI v1)) as (Ha & Hf & Hc & _ & Hd).
  simpl in Ha, Hf, Hc, Hd.
  assert (matching (updateUI (updateFilterUI v1)) = matching v0) as Hm
    by (unfold matching; by rewrite Ha, Hc, Ha1, Hc1).
  split; [by rewrite Ha, Ha1|]. split; [by rewrite Hm, Hf|].
  by rewrite Hm, Hd, Hd1, Hd0, Hf1.
Qed.

(** X4.  After a load that succeeded and any sequence of select changes,
    button clicks and key presses, the loaded records are untouched, the
    filtered records are exactly the loaded records of the current layout
    (none when no layout is current), and the display, when the page has one,
    shows the first of them (the first match among duplicates) or the
    no-data notice when there is none. *)
Theorem dispatch_settled (data : list LayoutSample) (sel : option Select)
    (disp : option Display) (events : list Event) :
  let v := dispatch events (init (Some data) (new sel disp)) in
  allData v = data
  ∧ filteredData v = matching v
  ∧ dataDisplay v = assign disp (rendering (matching v)).
Proof.
  unfold dispatch.
  assert (∀ v0, (allData v0 = data ∧ filteredData v0 = matching v0
                 ∧ dataDisplay v0 = assign disp (rendering (matching v0))) ->
                let v := fold_left (fun v e => handle e v) events v0 in
                allData v = data ∧ filteredData v = matching v
                ∧ dataDisplay v = assign disp (rendering (matching v))) as Hrun.
  { induction events as [|e events IH]; intros v0 H0; [done|]. simpl.
    apply IH. destruct H0 as (Hdata & Hfil & Hdisp).
    destruct (handle_settles e v0) as [->|(v' & -> & Hdata' & Hdisp')]; [done|].
    destruct (filter_then_update v') as (Ha & _ & _ & Hd & [Hf Hd']).
    split; [by rewrite Ha, Hdata'|]. split; [done|].
    rewrite Hd', Hd, Hdisp', Hdisp. by rewrite !assign_assign. }
  apply Hrun. apply init_settled.
Qed.

Lemma collectLayouts_nil (data : list LayoutSample) :
  Forall (fun item => layout_type item = "") data -> collectLayouts data = [].
Proof.
  intros Hall. destruct (collectLayouts data) as [|x l] eqn:Hc; [done|].
  assert (x ∈ collectLayouts data) as Hx by (rewrite Hc; left).
  apply DatasetViewerFacts.elem_of_collectLayouts in Hx
    as (Hne & item & Hin & Heq).
  eapply Forall_forall in Hall; [|exact Hin]. congruence.
Qed.

(** X5.  When no loaded record names a layout (no record at all, or only
    records whose [layout_type] is empty), the load is no error: there is no
    layout to select and none is current, nothing is filtered, the display
    shows the no-data notice, and the buttons and the arrow keys change
    nothing. *)
Theorem no_layouts_no_navigation (data : list LayoutSample) (sel : option Select)
    (disp : option Display) :
  Forall (fun item => layout_type item = "") data ->
  let v := init (Some data) (new sel disp) in
  availableLayouts v = []
  ∧ currentLayout v = ""
  ∧ filteredData v = []
  ∧ dataDisplay v = assign disp {| innerHTML := NoDataHTML; loaded := true |}
  ∧ ∀ e, (∀ x, e ≠ SelectChange x) -> handle e v = v.
Proof.
  intros Hall v.
  destruct (DatasetViewerFacts.init_layouts data (new sel disp)) as [Hl Hc].
  fold v in Hl, Hc.
  destruct (DatasetViewerFacts.populateFilterOptions_fields
              {| allData := data; filteredData := filteredData (new sel disp);
                 currentIndex := currentIndex (new sel disp);
                 currentLayout := currentLayout (new sel disp);
                 availableLayouts := availableLayouts (new sel disp);
                 layoutSelect := layoutSelect (new sel disp);
                 dataDisplay := dataDisplay (new sel disp) |})
    as (Hl' & _ & Hc').
  rewrite Hl' in Hl. rewrite Hc' in Hc. simpl in Hl, Hc.
  rewrite (collectLayouts_nil data Hall) in Hl, Hc.
  change (sort []) with (@nil string) in Hl, Hc.
  destruct (init_settled data sel disp) as (_ & Hf & Hd). fold v in Hf, Hd.
  assert (matching v = []) as Hm by (unfold matching; by rewrite Hc).
  rewrite Hm in Hf, Hd.
  split; [done|]. split; [done|]. split; [done|]. split; [done|].
  assert (∀ direction, navigateLayout direction v = v) as Hnav.
  { intros direction. unfold navigateLayout. by rewrite Hl, Hc. }
  intros e He. destruct e as [x| | |tag key]; simpl; try apply Hnav.
  - by destruct (He x).
  - destruct (_ || _); [done|].
    destruct (bool_decide (key = "ArrowLeft")); [apply Hnav|].
    destruct (bool_decide (key = "ArrowRight")); [apply Hnav|done].
Qed.

Lemma no_layouts_no_navigation_witness :
  let v := init (Some [ {| layout_type := ""; images := ["x.png"] |} ])
                (new None (Some {| innerHTML := PageMarkup; loaded := false |})) in
  availableLayouts v = []
  ∧ dataDisplay v = Some {| innerHTML := NoDataHTML; loaded := true |}
  ∧ handle NextClick v = v.
Proof.
  intros v.
  destruct (no_layouts_no_navigation
              [ {| layout_type := ""; images := ["x.png"] |} ] None
              (Some {| innerHTML := PageMarkup; loaded := false |}))
    as (Hl & _ & _ & Hd & Hnav).
  { by repeat constructor. }
  fold v in Hl, Hd, Hnav. split; [done|]. split; [done|].
  by apply Hnav.
Defined.

(** *** The lines of the document *)

Lemma trimEnd_cons (c : ascii) (s : string) :
  trimEnd (String c s)
  = match trimEnd s with
    | "" => if isWhiteSpace c then "" else String c ""
    | rest => String c rest
    end.
Proof. done. Qed.

Lemma trimEnd_cons_nil (c : ascii) (s : string) :
  trimEnd (String c s) = "" <-> isWhiteSpace c = true ∧ trimEnd s = "".
Proof.
  rewrite trimEnd_cons. destruct (trimEnd s); [|by split; [|intros [_ ?]]].
  destruct (isWhiteSpace c); split; try done. by intros [? _].
Qed.

Lemma trimEnd_cons_keep (c : ascii) (s : string) :
  trimEnd s ≠ "" -> trimEnd (String c s) = String c (trimEnd s).
Proof. intros H. rewrite trimEnd_cons. by destruct (trimEnd s). Qed.

(** A string is blank when it consists of white space: each of the three
    trims leaves nothing. *)
Lemma trimEnd_nil_trimStart (s : string) : trimEnd s = "" <-> trimStart s = "".
Proof.
  induction s as [|c s IH]; [done|].
  rewrite trimEnd_cons_nil. simpl. destruct (isWhiteSpace c).
  - rewrite IH. by split; [intros [_ ?]|].
  - by split; [intros [? _]|].
Qed.

Lemma trimStart_head (s : string) :
  trimStart s = ""
  ∨ ∃ c s', trimStart s = String c s' ∧ isWhiteSpace c = false.
Proof.
  induction s as [|c s IH]; [by left|]. simpl.
  destruct (isWhiteSpace c) eqn:Hc; [done|]. right. by exists c, s.
Qed.

Lemma trim_nil_trimEnd (s : string) : trim s = "" <-> trimEnd s = "".
Proof.
  unfold trim. rewrite (trimEnd_nil_trimStart s).
  destruct (trimStart_head s) as [Hs|(c & s' & Hs & Hc)].
  - by rewrite Hs.
  - rewrite Hs, trimEnd_cons_nil, Hc. split; [by intros [? _]|done].
Qed.

Lemma trimEnd_idem_nil (s : string) : trimEnd (trimEnd s) = "" <-> trimEnd s = "".
Proof.
  induction s as [|c s IH]; [done|].
  rewrite trimEnd_cons.
  destruct (trimEnd s) as [|c' r] eqn:Hr.
  - destruct (isWhiteSpace c) eqn:Hc; [done|].
    split; [|done]. rewrite trimEnd_cons_nil, Hc. by intros [? _].
  - split; [|done]. rewrite trimEnd_cons_nil. intros [_ H].
    by apply IH in H.
Qed.

Lemma splitLines_cons (s : string) : ∃ line lines, splitLines s = line :: lines.
Proof.
  induction s as [|c s (line & lines & IH)]; [by eexists _, _|]. simpl.
  destruct (decide (c = "010"%char)); [by eexists _, _|].
  rewrite IH. by eexists _, _.
Qed.

Lemma splitLines_one_empty (s : string) : splitLines s = [""] -> s = "".
Proof.
  destruct s as [|c s]; [done|]. simpl.
  destruct (decide (c = "010"%char)).
  - destruct (splitLines_cons s) as (line & lines & ->). done.
  - by destruct (splitLines_cons s) as (line & lines & ->).
Qed.

Lemma filter_blank (line : string) (lines : list string) :
  trimEnd line = "" ->
  filter (fun line => trim line ≠ "") (line :: lines)
  = filter (fun line => trim line ≠ "") lines.
Proof.
  intros H. rewrite filter_cons, decide_False; [done|].
  intros Hne. by apply Hne, trim_nil_trimEnd.
Qed.

Lemma filter_nonblank (line : string) (lines : list string) :
  trimEnd line ≠ "" ->
  filter (fun line => trim line ≠ "") (line :: lines)
  = line :: filter (fun line => trim line ≠ "") lines.
Proof.
  intros H. rewrite filter_cons, decide_True; [done|].
  by rewrite trim_nil_trimEnd.
Qed.

(** Trimming the start of a text trims the start of its first non-blank
    line and drops the blank lines before it. *)
Lemma recordLines_trimStart (s : string) :
  filter (fun line => trim line ≠ "") (splitLines (trimStart s))
  = trimFirst (filter (fun line => trim line ≠ "") (splitLines s)).
Proof.
  induction s as [|c s IH]; [done|].
  destruct (isWhiteSpace c) eqn:Hc.
  - replace (trimStart (String c s)) with (trimStart s) by (simpl; by rewrite Hc).
    rewrite IH. simpl. destruct (decide (c = "010"%char)) as [->|Hnl].
    + by rewrite filter_blank.
    + destruct (splitLines_cons s) as (line & lines & ->).
      destruct (decide (trimEnd line = "")) as [Hb|Hb].
      * rewrite (filter_blank line lines Hb).
        rewrite (filter_blank (String c line) lines); [done|].
        by apply trimEnd_cons_nil.
      * rewrite (filter_nonblank line lines Hb).
        rewrite (filter_nonblank (String c line) lines).
        -- simpl. by rewrite Hc.
        -- rewrite trimEnd_cons_nil. by intros [_ ?].
  - replace (trimStart (String c s)) with (String c s) by (simpl; by rewrite Hc).
    simpl. destruct (decide (c = "010"%char)) as [->|Hnl]; [done|].
    destruct (splitLines_cons s) as (line & lines & ->).
    rewrite filter_nonblank.
    + simpl. by rewrite Hc.
    + rewrite trimEnd_cons_nil, Hc. by intros [? _].
Qed.

Lemma trimLines_nil (lines : list string) :
  trimLines lines = [] <-> Forall (fun line => trimEnd line = "") lines.
Proof.
  induction lines as [|line lines IH]; [done|]. simpl.
  rewrite Forall_cons, <- IH.
  destruct (trimLines lines); [|by split; [|intros [_ ?]]].
  destruct (decide (trimEnd line = "")); split; try done. by intros [? _].
Qed.

Lemma filter_all_blank (lines : list string) :
  Forall (fun line => trimEnd line = "") lines ->
  filter (fun line => trim line ≠ "") lines = [].
Proof.
  induction 1 as [|line lines Hb _ IH]; [done|]. by rewrite filter_blank.
Qed.

Lemma filter_some_nonblank (lines : list string) :
  trimLines lines ≠ [] -> filter (fun line => trim line ≠ "") lines ≠ [].
Proof.
  induction lines as [|line lines IH]; [done|]. simpl.
  destruct (decide (trimEnd line = "")) as [Hb|Hb].
  - rewrite filter_blank by done. intros H. apply IH.
    by destruct (trimLines lines).
  - by rewrite filter_nonblank.
Qed.

(** On non-blank lines, what [trimLines] keeps is what [trimLast] keeps. *)
Lemma filter_trimLines (lines : list string) :
  filter (fun line => trim line ≠ "") (trimLines lines)
  = trimLast (filter (fun line => trim line ≠ "") lines).
Proof.
  induction lines as [|line lines IH]; [done|]. simpl.
  destruct (trimLines lines) as [|kept1 kept] eqn:Hk.
  - apply trimLines_nil in Hk. apply filter_all_blank in Hk.
    destruct (decide (trimEnd line = "")) as [Hb|Hb].
    + by rewrite filter_blank, Hk.
    + rewrite (filter_nonblank line lines Hb), Hk. simpl.
      rewrite filter_nonblank; [done|]. by rewrite trimEnd_idem_nil.
  - assert (filter (fun line => trim line ≠ "") lines ≠ []) as Hsome
      by (apply filter_some_nonblank; by rewrite Hk).
    destruct (decide (trimEnd line = "")) as [Hb|Hb].
    + by rewrite (filter_blank line (kept1 :: kept) Hb),
                 (filter_blank line lines Hb).
    + rewrite (filter_nonblank line (kept1 :: kept) Hb),
              (filter_nonblank line lines Hb), IH. simpl.
      by destruct (filter _ lines).
Qed.

Lemma trimLines_not_one_empty (lines : list string) : trimLines lines ≠ [""].
Proof.
  destruct lines as [|line lines]; [done|]. simpl.
  destruct (trimLines lines); [|done].
  destruct (decide (trimEnd line = "")); [done|]. congruence.
Qed.

(** Trimming the end of a text is [trimLines] on its lines. *)
Lemma splitLines_trimEnd (s : string) :
  splitLines (trimEnd s)
  = match trimLines (splitLines s) with
    | [] => [""]
    | kept => kept
    end.
Proof.
  induction s as [|c s IH]; [done|].
  destruct (splitLines_cons s) as (l & ls & Hs).
  rewrite trimEnd_cons.
  change (splitLines (String c s))
    with (if decide (c = "010"%char) then "" :: splitLines s
          else match splitLines s with
               | line :: lines => String c line :: lines
               | [] => [String c ""]
               end).
  destruct (decide (c = "010"%char)) as [->|Hnl].
  - pose proof (trimLines_not_one_empty (splitLines s)) as Hne.
    cbn [trimLines].
    destruct (trimLines (splitLines s)) as [|k ks] eqn:Hk.
    + apply splitLines_one_empty in IH. by rewrite IH.
    + destruct (trimEnd s) as [|c' r] eqn:Hr; [simpl in IH; congruence|].
      simpl. simpl in IH. by rewrite IH.
  - rewrite Hs in IH |- *. cbn [trimLines] in IH |- *.
    destruct (trimLines ls) as [|k ks] eqn:Hk.
    + destruct (decide (trimEnd l = "")) as [Hb|Hb].
      * apply splitLines_one_empty in IH. rewrite IH.
        rewrite trimEnd_cons, Hb.
        destruct (isWhiteSpace c) eqn:Hc; [done|].
        simpl. by rewrite decide_False.
      * assert (trimEnd s ≠ "") as Hr.
        { intros Hr. rewrite Hr in IH. simpl in IH. congruence. }
        rewrite (trimEnd_cons_keep c l Hb).
        rewrite decide_False by done.
        destruct (trimEnd s) as [|c' r] eqn:Hr'; [done|].
        simpl. rewrite decide_False by done. simpl in IH. by rewrite IH.
    + assert (trimEnd s ≠ "") as Hr.
      { intros Hr. rewrite Hr in IH. simpl in IH. congruence. }
      destruct (trimEnd s) as [|c' r] eqn:Hr'; [done|].
      simpl. rewrite decide_False by done. simpl in IH. by rewrite IH.
Qed.

(** X6.  The strings that [loadData] hands to [JSON.parse] are the
    non-blank lines of the text, in order and each on its own; blank lines
    (white space only) are skipped wherever they are.  The lines are passed
    as they are, except that the first of them has lost its leading and the
    last of them its trailing white space. *)
Theorem recordLines_are_nonblank_lines (text : string) :
  recordLines text
  = trimLast (trimFirst
      (filter (fun line => trim line ≠ "") (splitLines text))).
Proof.
  unfold recordLines. change (trim text) with (trimEnd (trimStart text)).
  rewrite <- recordLines_trimStart, <- filter_trimLines, splitLines_trimEnd.
  by destruct (trimLines (splitLines (trimStart text))).
Qed.

Example recordLines_sample :
  recordLines (String "010" (" {4room}" +:+ String "010" (String "009" (String "010"
                 ("{3room} " +:+ String "010" ("  {x}  " +:+ String "010" " "))))))
  = ["{4room}"; "{3room} "; "  {x}"].
Proof. by vm_compute. Qed.

Lemma trimStart_blank (text : string) :
  Forall (fun c => isWhiteSpace c = true) (String.list_ascii_of_string text) ->
  trimStart text = "".
Proof.
  induction text as [|c text IH]; [done|]. simpl.
  intros [Hc Hall]%Forall_cons. rewrite Hc. by apply IH.
Qed.

(** X7.  A response whose text is empty or white space only is no error,
    whatever its status was (the code does not test [response.ok]): nothing
    is handed to [JSON.parse], no record is loaded, no layout is selectable,
    and the display, when the page has one, shows the no-data notice. *)
Theorem blank_document_is_no_data (parse : string -> option LayoutSample)
    (text : string) (sel : option Select) (disp : option Display) :
  Forall (fun c => isWhiteSpace c = true) (String.list_ascii_of_string text) ->
  let v := start parse (Some text) sel disp in
  recordLines text = []
  ∧ loadData parse (Some text) = Some []
  ∧ allData v = []
  ∧ availableLayouts v = []
  ∧ dataDisplay v = assign disp {| innerHTML := NoDataHTML; loaded := true |}.
Proof.
  intros Hblank v.
  assert (recordLines text = []) as Hlines.
  { unfold recordLines, trim. by rewrite (trimStart_blank text Hblank). }
  assert (loadData parse (Some text) = Some []) as Hload
    by (unfold loadData; by rewrite Hlines).
  subst v. unfold start. rewrite Hload.
  split; [done|]. split; [done|]. by destruct disp.
Qed.

Lemma blank_document_is_no_data_witness :
  let text := String "010" (" " +:+ String "009" (String "010" "")) in
  let v := start Demo.parse (Some text) None
             (Some {| innerHTML := PageMarkup; loaded := false |}) in
  recordLines text = []
  ∧ loadData Demo.parse (Some text) = Some []
  ∧ allData v = []
  ∧ availableLayouts v = []
  ∧ dataDisplay v = Some {| innerHTML := NoDataHTML; loaded := true |}.
Proof.
  apply (blank_document_is_no_data Demo.parse
           (String "010" (" " +:+ String "009" (String "010" ""))) None
           (Some {| innerHTML := PageMarkup; loaded := false |})).
  by repeat constructor.
Defined.

(** X8.  When [fetch] rejects, or when [JSON.parse] throws on one of the
    lines handed to it, the load fails as a whole: no record is kept, not
    even those of the lines that parse, no layout becomes selectable or
    current, the select is left as it was, and the display, when the page
    has one, shows "Failed to load dataset". *)
Theorem failed_load_shows_error (parse : string -> option LayoutSample)
    (response : option string) (sel : option Select) (disp : option Display) :
  (response = None
   ∨ ∃ text line, response = Some text
                  ∧ line ∈ recordLines text ∧ parse line = None) ->
  let v := start parse response sel disp in
  allData v = []
  ∧ availableLayouts v = []
  ∧ currentLayout v = ""
  ∧ layoutSelect v = sel
  ∧ dataDisplay v
    = match disp with
      | Some d => Some {| innerHTML := ErrorHTML "Failed to load dataset";
                          loaded := loaded d |}
      | None => None
      end.
Proof.
  intros Hfail v.
  assert (loadData parse response = None) as Hload.
  { destruct Hfail as [->|(text & line & -> & Hin & Hline)]; [done|].
    apply mapM_None, Exists_exists. by exists line. }
  subst v. unfold start. rewrite Hload. by destruct disp.
Qed.

Lemma failed_load_shows_error_witness :
  let text := "{4room}" +:+ String "010" ("{5room}" +:+ String "010" "{3room}") in
  let v := start Demo.parse (Some text) None
             (Some {| innerHTML := PageMarkup; loaded := false |}) in
  recordLines text = ["{4room}"; "{5room}"; "{3room}"]
  ∧ allData v = []
  ∧ dataDisplay v
    = Some {| innerHTML := ErrorHTML "Failed to load dataset"; loaded := false |}.
Proof.
  intros text v. split; [by vm_compute|].
  destruct (failed_load_shows_error Demo.parse (Some text) None
              (Some {| innerHTML := PageMarkup; loaded := false |}))
    as (Hdata & _ & _ & _ & Hdisp).
  { right. exists text, "{5room}". split; [done|]. split; [|done].
    apply (bool_decide_unpack _). by vm_compute. }
  by split.
Defined.

End DatasetViewerRuns.

(** ** CitationCopy: runs of the button *)

Module CitationCopyRuns.
Import CitationCopy.

Lemma isFeedback_click (ok : bool) :
  isFeedback (if ok then "copied" else "copy-error") = true.
Proof. by destruct ok. Qed.

Lemma runTimeouts_filter (fired : list Timeout) (cl : list string) :
  runTimeouts fired cl = filter (fun x => x ∉ removes <$> fired) cl.
Proof.
  revert cl. unfold runTimeouts.
  induction fired as [|t fired IH]; intros cl; simpl.
  - induction cl as [|x cl IHcl]; [done|].
    rewrite filter_cons_True by apply not_elem_of_nil. by rewrite <- IHcl.
  - rewrite IH. unfold classList_remove. rewrite list_filter_filter.
    apply list_filter_iff. intros x. rewrite not_elem_of_cons. tauto.
Qed.

(** Removing feedback classes leaves the other classes as they are, in
    their order. *)
Lemma filter_others_runTimeouts (fired : list Timeout) (cl : list string) :
  Forall (fun t => isFeedback (removes t) = true) fired ->
  filter (fun x => isFeedback x = false) (runTimeouts fired cl)
  = filter (fun x => isFeedback x = false) cl.
Proof.
  intros Hfb. rewrite runTimeouts_filter. apply list_filter_filter_l.
  intros x Hx (t & -> & Ht)%list_elem_of_fmap.
  eapply Forall_forall in Hfb; [|exact Ht]. congruence.
Qed.

Lemma filter_others_add (c : string) (cl : list string) :
  isFeedback c = true ->
  filter (fun x => isFeedback x = false) (classList_add c cl)
  = filter (fun x => isFeedback x = false) cl.
Proof.
  intros Hc. unfold classList_add. destruct (decide (c ∈ cl)); [done|].
  rewrite filter_app, filter_cons, decide_False by congruence.
  by rewrite filter_nil, app_nil_r.
Qed.

Lemma timed_step (e : Event) (p : Page) : timed p -> timed (step e p).
Proof.
  intros Hp. unfold timed in *. destruct e as [ok|ms]; simpl.
  - apply Forall_app. split.
    + eapply Forall_impl; [exact Hp|]. done.
    + apply Forall_singleton. simpl. split; [apply isFeedback_click|].
      unfold feedbackDelay. lia.
  - apply Forall_forall. intros t [Hwait Ht]%list_elem_of_filter.
    eapply Forall_forall in Hp; [|exact Ht]. destruct Hp as [Hfb Hdue].
    split; [done|]. lia.
Qed.

Lemma covered_step (e : Event) (p : Page) : covered p -> covered (step e p).
Proof.
  intros Hp c. destruct e as [ok|ms]; simpl.
  - rewrite CitationCopyFacts.elem_of_classList_add. intros [Hc| ->] Hfb.
    + destruct (Hp c Hc Hfb) as (t & Ht & Hr). exists t.
      split; [|done]. apply elem_of_app. by left.
    + exists {| due := now p + feedbackDelay;
                removes := if ok then "copied" else "copy-error" |}.
      split; [|done]. apply elem_of_app. right. left.
  - rewrite runTimeouts_filter. intros [Hnot Hc]%list_elem_of_filter Hfb.
    destruct (Hp c Hc Hfb) as (t & Ht & Hr). exists t. split; [|done].
    apply list_elem_of_filter. split; [|done]. intros Hdue. apply Hnot.
    apply list_elem_of_fmap. exists t. split; [done|].
    by apply list_elem_of_filter.
Qed.

Lemma others_step (e : Event) (p : Page) :
  timed p ->
  filter (fun x => isFeedback x = false) (classList (step e p))
  = filter (fun x => isFeedback x = false) (classList p)
  ∧ citationText (step e p) = citationText p.
Proof.
  intros Hp. destruct e as [ok|ms]; simpl.
  - split; [|done]. apply filter_others_add, isFeedback_click.
  - split; [|done]. apply filter_others_runTimeouts.
    apply Forall_forall. intros t [_ Ht]%list_elem_of_filter.
    eapply Forall_forall in Hp; [|exact Ht]. by destruct Hp.
Qed.

Lemma run_timed (events : list Event) (p : Page) :
  timed p ->
  timed (run events p)
  ∧ filter (fun x => isFeedback x = false) (classList (run events p))
    = filter (fun x => isFeedback x = false) (classList p).
Proof.
  revert p. unfold run.
  induction events as [|e events IH]; intros p Ht; [done|]. simpl.
  destruct (IH (step e p) (timed_step e p Ht)) as (Ht' & Hcl).
  destruct (others_step e p Ht) as [Hcl1 _].
  split; [done|]. congruence.
Qed.

Lemma run_covered (events : list Event) (p : Page) :
  covered p -> covered (run events p).
Proof.
  revert p. unfold run.
  induction events as [|e events IH]; intros p Hc; [done|]. simpl.
  by apply IH, covered_step.
Qed.

(** The clipboard holds the citation once a click of the run has copied;
    the citation itself is never written. *)
Lemma run_clipboard (events : list Event) (p : Page) :
  citationText (run events p) = citationText p
  ∧ clipboard (run events p)
    = if copied events then citationText p else clipboard p.
Proof.
  revert p. unfold run, copied.
  induction events as [|e events IH]; intros p; [done|]. simpl.
  destruct (IH (step e p)) as [-> ->].
  destruct e as [[|]|ms]; simpl; split; try done.
  - by destruct (existsb _ events).
Qed.

Lemma filter_ext_in (P Q : string -> Prop) `{!∀ x, Decision (P x)}
    `{!∀ x, Decision (Q x)} (l : list string) :
  (∀ x, x ∈ l -> P x <-> Q x) -> filter P l = filter Q l.
Proof.
  induction l as [|x l IH]; intros Hext; [done|].
  rewrite !filter_cons, IH.
  - apply decide_ext, Hext. left.
  - intros y Hy. apply Hext. by right.
Qed.

(** X9.  The feedback never sticks.  From a button without feedback class
    and without pending timeout, after any sequence of clicks, copied or
    failed, and waits, once 2000 ms or more have passed since the last of
    them the class list is exactly what it was before the first click, and
    no timeout is pending. *)
Theorem feedback_always_ends (p : Page) (events : list Event) (d : Z) :
  timeouts p = [] ->
  Forall (fun c => isFeedback c = false) (classList p) ->
  2000 <= d ->
  classList (elapse d (run events p)) = classList p
  ∧ timeouts (elapse d (run events p)) = [].
Proof.
  intros Hts Hrest Hd.
  assert (timed p) as Htimed by (unfold timed; by rewrite Hts).
  assert (covered p) as Hcov.
  { intros c Hc Hfb. eapply Forall_forall in Hrest; [|exact Hc]. congruence. }
  destruct (run_timed events p Htimed) as [Ht Hothers].
  pose proof (run_covered events p Hcov) as Hc.
  set (q := run events p) in *.
  assert (filter (fun x => isFeedback x = false) (classList p) = classList p)
    as Hall.
  { clear -Hrest. induction Hrest as [|c cl Hc _ IH]; [done|].
    by rewrite filter_cons_True, IH. }
  assert (filter (fun x => due x <= now q + d) (timeouts q) = timeouts q) as Hdue.
  { unfold timed in Ht. clear -Ht Hd.
    induction Ht as [|t ts [_ Ht] _ IH]; [done|].
    rewrite filter_cons_True by lia. by rewrite IH. }
  assert (filter (fun x => ¬ due x <= now q + d) (timeouts q) = []) as Hnone.
  { unfold timed in Ht. clear -Ht Hd.
    induction Ht as [|t ts [_ Ht] _ IH]; [done|].
    by rewrite filter_cons_False by (intros H; apply H; lia). }
  unfold elapse. simpl. split; [|done].
  rewrite Hdue, runTimeouts_filter, <- Hall, <- Hothers.
  apply filter_ext_in. intros x Hx. split.
  - intros Hnot. destruct (isFeedback x) eqn:Hfb; [|done].
    destruct (Hc x Hx Hfb) as (t & Ht' & Hr). destruct Hnot.
    apply list_elem_of_fmap. by exists t.
  - intros Hfb (t & -> & Ht')%list_elem_of_fmap.
    eapply Forall_forall in Ht; [|exact Ht']. destruct Ht. congruence.
Qed.

Lemma feedback_always_ends_witness :
  let p := {| now := 0; classList := ["button"; "is-small"];
              citationText := "@misc{tos}"; clipboard := ""; timeouts := [] |} in
  let events := [Click true; Wait 700; Click false; Wait 1500; Click true] in
  classList (run events p) = ["button"; "is-small"; "copy-error"; "copied"]
  ∧ classList (elapse 2000 (run events p)) = ["button"; "is-small"]
  ∧ timeouts (elapse 2000 (run events p)) = [].
Proof.
  intros p events. split; [by vm_compute|].
  apply (feedback_always_ends p events 2000).
  - reflexivity.
  - by repeat constructor.
  - lia.
Defined.

(** X10.  From a button without pending timeout, whatever the clicks and
    waits: the classes other than the two feedback classes stay as they
    are and in their order, the citation text is not changed, and the
    clipboard holds the citation text if some click copied and is untouched
    otherwise. *)
Theorem listener_touches_feedback_only (p : Page) (events : list Event) :
  timeouts p = [] ->
  filter (fun x => isFeedback x = false) (classList (run events p))
    = filter (fun x => isFeedback x = false) (classList p)
  ∧ citationText (run events p) = citationText p
  ∧ clipboard (run events p)
    = if copied events then citationText p else clipboard p.
Proof.
  intros Hts.
  assert (timed p) as Htimed by (unfold timed; by rewrite Hts).
  destruct (run_timed events p Htimed) as [_ Hothers].
  destruct (run_clipboard events p) as [Htext Hclip].
  done.
Qed.

Lemma listener_touches_feedback_only_witness :
  let p := {| now := 0; classList := ["copied"; "button"];
              citationText := "@misc{tos}"; clipboard := "old";
              timeouts := [] |} in
  filter (fun x => isFeedback x = false)
         (classList (run [Click false; Wait 2500] p)) = ["button"]
  ∧ clipboard (run [Click false; Wait 2500] p) = "old"
  ∧ clipboard (run [Click false; Click true] p) = "@misc{tos}".
Proof.
  intros p.
  destruct (listener_touches_feedback_only p [Click false; Wait 2500] eq_refl)
    as (Hcl & _ & Hclip).
  destruct (listener_touches_feedback_only p [Click false; Click true] eq_refl)
    as (_ & _ & Hclip').
  split; [exact Hcl|]. split; [exact Hclip|exact Hclip'].
Defined.

End CitationCopyRuns.

(** ** TrajectoryViewer: runs of the viewer *)

Module TrajectoryViewerRuns.
Import TrajectoryViewer.

(** *** The timer *)

Lemma oneTimer_frame (m m' : Model) :
  isPlaying m' = isPlaying m ->
  playInterval m' = playInterval m ->
  intervals m' = intervals m ->
  oneTimer m -> oneTimer m'.
Proof. unfold oneTimer. by intros -> -> ->. Qed.

Lemma oneTimer_navigateToStep (i : Z) (m : Model) :
  oneTimer m -> oneTimer (navigateToStep i m).
Proof.
  destruct (TrajectoryViewerFacts.navigateToStep_frame i m)
    as (_ & _ & _ & _ & Hp & Hi & Hs & _).
  by apply oneTimer_frame.
Qed.

Lemma oneTimer_initializeTimeline (m : Model) :
  oneTimer m -> oneTimer (initializeTimeline m).
Proof.
  destruct (TrajectoryViewerFacts.initializeTimeline_frame m)
    as (_ & _ & _ & _ & Hp & Hi & Hs & _).
  by apply oneTimer_frame.
Qed.

Lemma oneTimer_pause (m : Model) : oneTimer m -> oneTimer (pause m).
Proof.
  unfold oneTimer, pause. simpl.
  destruct (playInterval m) as [h|]; [|by intros [_ ?]].
  intros (_ & tr & ->). split; [done|]. apply delete_singleton_eq.
Qed.

Lemma oneTimer_playTrajectory (m : Model) :
  oneTimer m -> oneTimer (playTrajectory m).
Proof.
  intros Hm. unfold playTrajectory.
  destruct (currentTrajectory m) as [tr|]; [|done].
  destruct (isPlaying m) eqn:Hplaying; [by apply oneTimer_pause|].
  unfold oneTimer in *. simpl.
  destruct (playInterval m) as [h|].
  - destruct Hm as [Hm _]. congruence.
  - destruct Hm as [_ ->]. split; [done|]. exists tr. apply insert_empty.
Qed.

Lemma oneTimer_tick (h : nat) (m : Model) : oneTimer m -> oneTimer (tick h m).
Proof.
  intros Hm. unfold tick, intervalCallback.
  destruct (intervals m !! h); [|done].
  destruct (_ <? _); [by apply oneTimer_navigateToStep|by apply oneTimer_pause].
Qed.

Lemma oneTimer_handle (e : Event) (m : Model) : oneTimer m -> oneTimer (handle e m).
Proof.
  intros Hm. destruct e as [| | |x|i|h]; simpl.
  - destruct (_ >? _); [by apply oneTimer_navigateToStep|done].
  - destruct (currentTrajectory m); [|done].
    destruct (_ <? _); [by apply oneTimer_navigateToStep|done].
  - by apply oneTimer_playTrajectory.
  - apply oneTimer_initializeTimeline. revert Hm. by apply oneTimer_frame.
  - by apply oneTimer_navigateToStep.
  - by apply oneTimer_tick.
Qed.

Lemma oneTimer_loadTaskData_begin (taskId : string) (m : Model) :
  oneTimer m -> oneTimer (loadTaskData_begin taskId m).1.
Proof.
  unfold loadTaskData_begin. destruct (List.find _ _); simpl;
    by apply oneTimer_frame.
Qed.

Lemma oneTimer_loadTaskData_resume (taskId : string) (r : Response TaskData.t)
    (m : Model) :
  oneTimer m -> oneTimer (loadTaskData_resume taskId r m).
Proof.
  intros Hm. destruct r as [|status text| |data];
    try (revert Hm; by apply oneTimer_frame).
  unfold loadTaskData_resume.
  destruct (map _ (TaskData.trajectories data)) as [|[value text] options].
  - revert Hm. by apply oneTimer_frame.
  - apply oneTimer_initializeTimeline. revert Hm. by apply oneTimer_frame.
Qed.

Lemma oneTimer_run (a : Action) (m : Model) : oneTimer m -> oneTimer (run a m).
Proof.
  intros Hm. destruct a as [e| |r|x|taskId r]; simpl.
  - by apply oneTimer_handle.
  - revert Hm. by apply oneTimer_frame.
  - destruct r as [|status text| |data]; simpl;
      try (revert Hm; by apply oneTimer_frame).
    set (m1 := {| availableTasks := TaskIndex.tasks data |}).
    assert (oneTimer m1) as Hm1 by (revert Hm; by apply oneTimer_frame).
    destruct (TaskIndex.tasks data) as [|first rest]; [done|].
    pose proof (oneTimer_loadTaskData_begin (Task.id first) m1 Hm1) as H.
    by destruct (loadTaskData_begin (Task.id first) m1) as [m2 [url|]].
  - by apply oneTimer_loadTaskData_begin.
  - by apply oneTimer_loadTaskData_resume.
Qed.

(** X11.  In every state the viewer can reach, at most one interval is
    live.  While paused there is none: whatever was played and paused
    before, no timer is left behind.  While playing there is exactly the
    one whose handle [playInterval] holds, and its delay is 2000 ms. *)
Theorem reachable_oneTimer (d : Dom) (m : Model) :
  reachable d m ->
  (isPlaying m = false -> playInterval m = None ∧ intervals m = ∅)
  ∧ (isPlaying m = true ->
     ∃ h trajectory,
       playInterval m = Some h
       ∧ intervals m = {[ h := {| delay := 2000; trajectory := trajectory |} ]}).
Proof.
  intros Hreach.
  assert (oneTimer m) as Hm.
  { induction Hreach as [|a m _ IH]; [done|]. by apply oneTimer_run. }
  unfold oneTimer in Hm. destruct (playInterval m) as [h|].
  - destruct Hm as (Hp & tr & Hi). split; [congruence|].
    intros _. by exists h, tr.
  - destruct Hm as (Hp & Hi). split; [done|]. congruence.
Qed.

Lemma reachable_oneTimer_witness :
  let played := run (Dispatch PlayPauseClick) Demo.loaded in
  let paused := run (Dispatch PlayPauseClick)
                    (run (Dispatch (IntervalFires 0)) played) in
  isPlaying played = true
  ∧ (∃ h trajectory,
       playInterval played = Some h
       ∧ intervals played = {[ h := {| delay := 2000; trajectory := trajectory |} ]})
  ∧ isPlaying paused = false
  ∧ playInterval paused = None ∧ intervals paused = ∅.
Proof.
  intros played paused.
  assert (reachable Demo.page played) as Hplayed
    by (apply reachable_run, TrajectoryViewerFacts.init_reachable).
  assert (reachable Demo.page paused) as Hpaused
    by (do 2 apply reachable_run; exact Hplayed).
  assert (isPlaying played = true) as Hon by (by vm_compute).
  assert (isPlaying paused = false) as Hoff by (by vm_compute).
  destruct (reachable_oneTimer Demo.page played Hplayed) as [_ H1].
  destruct (reachable_oneTimer Demo.page paused Hpaused) as [H2 _].
  split; [done|]. split; [by apply H1|]. split; [done|]. by apply H2.
Defined.

(** *** The current step stays inside the trajectory *)

Lemma inBounds_frame (m m' : Model) :
  currentTrajectory m' = currentTrajectory m ->
  currentStepIndex m' = currentStepIndex m ->
  inBounds m -> inBounds m'.
Proof. unfold inBounds. by intros -> ->. Qed.

Lemma inBounds_none (m : Model) :
  0 <= currentStepIndex m -> currentTrajectory m = None -> inBounds m.
Proof. intros Hcur Hnone. split; [done|]. intros tr. by rewrite Hnone. Qed.

Lemma inBounds_navigateToStep (i : Z) (m : Model) :
  inBounds m -> inBounds (navigateToStep i m).
Proof.
  intros Hm.
  destruct (currentTrajectory m) as [tr|] eqn:Htr;
    [|by rewrite (TrajectoryViewerFacts.navigateToStep_none i m Htr)].
  destruct (decide (0 <= i < Z.of_nat (length (Trajectory.steps tr)))) as [Hin|Hout].
  - unfold inBounds.
    rewrite TrajectoryViewerFacts.currentTrajectory_navigateToStep, Htr.
    rewrite (TrajectoryViewerFacts.navigateToStep_in_range i m tr Htr Hin).
    split; [lia|]. intros tr' [= <-] _. lia.
  - by rewrite (TrajectoryViewerFacts.navigateToStep_out_of_range i m tr Htr)
      by lia.
Qed.

(** [initializeTimeline] brings the step inside, wherever it was. *)
Lemma inBounds_initializeTimeline (m : Model) :
  0 <= currentStepIndex m -> inBounds (initializeTimeline m).
Proof.
  intros Hcur. unfold initializeTimeline.
  destruct (currentTrajectory m) as [tr|] eqn:Htr; [|by apply inBounds_none].
  set (d := {| taskSelect := _ |}).
  assert (currentTrajectory (setDom d m) = Some tr) as Htr'
    by (by rewrite <- Htr).
  destruct (decide (0 < Z.of_nat (length (Trajectory.steps tr)))) as [Hpos|Hzero].
  - unfold inBounds.
    rewrite TrajectoryViewerFacts.currentTrajectory_navigateToStep, Htr'.
    rewrite (TrajectoryViewerFacts.navigateToStep_in_range 0 _ tr Htr') by lia.
    split; [done|]. intros tr' [= <-] _. lia.
  - rewrite (TrajectoryViewerFacts.navigateToStep_out_of_range 0 _ tr Htr')
      by lia.
    split; [done|]. rewrite Htr'. intros tr' [= <-] Hsteps.
    destruct (Trajectory.steps tr); [done|]. simpl in Hzero. lia.
Qed.

Lemma inBounds_handle (e : Event) (m : Model) : inBounds m -> inBounds (handle e m).
Proof.
  intros Hm. destruct e as [| | |x|i|h]; simpl.
  - destruct (_ >? _); [by apply inBounds_navigateToStep|done].
  - destruct (currentTrajectory m); [|done].
    destruct (_ <? _); [by apply inBounds_navigateToStep|done].
  - unfold playTrajectory. destruct (currentTrajectory m) eqn:Htr; [|done].
    destruct (isPlaying m); revert Hm; by apply inBounds_frame.
  - apply inBounds_initializeTimeline. by destruct Hm.
  - by apply inBounds_navigateToStep.
  - unfold tick, intervalCallback. destruct (intervals m !! h); [|done].
    destruct (_ <? _); [by apply inBounds_navigateToStep|].
    revert Hm. by apply inBounds_frame.
Qed.

Lemma inBounds_loadTaskData_begin (taskId : string) (m : Model) :
  inBounds m -> inBounds (loadTaskData_begin taskId m).1.
Proof.
  unfold loadTaskData_begin. destruct (List.find _ _); simpl;
    by apply inBounds_frame.
Qed.

(** Stored data without trajectories leaves no current trajectory. *)
Lemma currentTrajectory_no_trajectories (m : Model) (data : TaskData.t) :
  taskData m !! currentTaskId m = Some data ->
  TaskData.trajectories data = [] ->
  currentTrajectory m = None.
Proof.
  intros Hdata Hnone. unfold currentTrajectory.
  destruct (negb _ || negb _); [done|]. by rewrite Hdata, Hnone.
Qed.

Lemma inBounds_loadTaskData_resume (taskId : string) (r : Response TaskData.t)
    (m : Model) :
  inBounds m -> inBounds (loadTaskData_resume taskId r m).
Proof.
  intros Hm. destruct r as [|status text| |data];
    try (revert Hm; by apply inBounds_frame).
  unfold loadTaskData_resume.
  destruct (TaskData.trajectories data) as [|[id tr] trajs] eqn:Htrajs; simpl.
  - apply inBounds_none; [by destruct Hm|].
    apply (currentTrajectory_no_trajectories _ data); [|done].
    simpl. apply lookup_insert_eq.
  - apply inBounds_initializeTimeline. by destruct Hm.
Qed.

Lemma inBounds_run (a : Action) (m : Model) : inBounds m -> inBounds (run a m).
Proof.
  intros Hm. destruct a as [e| |r|x|taskId r]; simpl.
  - by apply inBounds_handle.
  - revert Hm. by apply inBounds_frame.
  - destruct r as [|status text| |data]; simpl;
      try (revert Hm; by apply inBounds_frame).
    set (m1 := {| availableTasks := TaskIndex.tasks data |}).
    assert (inBounds m1) as Hm1 by (revert Hm; by apply inBounds_frame).
    destruct (TaskIndex.tasks data) as [|first rest]; [done|].
    pose proof (inBounds_loadTaskData_begin (Task.id first) m1 Hm1) as H.
    by destruct (loadTaskData_begin (Task.id first) m1) as [m2 [url|]].
  - by apply inBounds_loadTaskData_begin.
  - by apply inBounds_loadTaskData_resume.
Qed.

Lemma inBounds_reachable (d : Dom) (m : Model) : reachable d m -> inBounds m.
Proof.
  induction 1 as [|a m _ IH]; [|by apply inBounds_run].
  by apply inBounds_none.
Qed.

(** X12.  In every state the viewer can reach, the current step index is
    not negative, and when the current trajectory has steps it is the index
    of one of them: the step the page shows exists.  (With a current
    trajectory that has no step the index is left where it was.) *)
Theorem reachable_inBounds (d : Dom) (m : Model) (tr : Trajectory.t) :
  reachable d m ->
  currentTrajectory m = Some tr ->
  0 <= currentStepIndex m
  ∧ (Trajectory.steps tr ≠ [] ->
     is_Some (Trajectory.steps tr !! Z.to_nat (currentStepIndex m))).
Proof.
  intros Hreach Htr. destruct (inBounds_reachable d m Hreach) as [Hcur Hlt].
  split; [done|]. intros Hsteps. apply lookup_lt_is_Some_2.
  specialize (Hlt tr Htr Hsteps). lia.
Qed.

Lemma reachable_inBounds_witness :
  let m := run (Dispatch NextClick)
             (run (Dispatch (MarkerClick 2)) Demo.loaded) in
  currentTrajectory m = Some Demo.walk
  ∧ currentStepIndex m = 2
  ∧ 0 <= currentStepIndex m
  ∧ (Trajectory.steps Demo.walk ≠ [] ->
     is_Some (Trajectory.steps Demo.walk !! Z.to_nat (currentStepIndex m))).
Proof.
  intros m.
  assert (currentTrajectory m = Some Demo.walk) as Htr by (by vm_compute).
  split; [done|]. split; [by vm_compute|].
  apply (reachable_inBounds Demo.page m Demo.walk); [|done].
  do 2 apply reachable_run. apply TrajectoryViewerFacts.init_reachable.
Defined.

(** *** Navigation depends on the target only *)

Lemma markSteps_absorb (i j : Z) (markers : list Marker) :
  markSteps j (markSteps i markers) = markSteps j markers.
Proof.
  apply list_eq. intros k.
  rewrite !TrajectoryViewerFacts.lookup_imap_markSteps.
  by destruct (markers !! k).
Qed.

Lemma updateTimeline_absorb (i j n n' : Z) (t : Timeline) :
  updateTimeline j n (updateTimeline i n' t) = updateTimeline j n t.
Proof. destruct t; simpl; [done..|]. by rewrite markSteps_absorb. Qed.

(** For a step [j] of the trajectory, navigating to [j] after navigating
    to [i] is navigating to [j]. *)
Lemma navigateToStep_absorb (i j : Z) (m : Model) (tr : Trajectory.t) :
  currentTrajectory m = Some tr ->
  0 <= j < Z.of_nat (length (Trajectory.steps tr)) ->
  navigateToStep j (navigateToStep i m) = navigateToStep j m.
Proof.
  intros Htr Hj.
  pose proof (TrajectoryViewerFacts.currentTrajectory_navigateToStep i m) as Hcur.
  destruct (lookup_lt_is_Some_2 (Trajectory.steps tr) (Z.to_nat j)) as [stj Hstj];
    [lia|].
  unfold navigateToStep at 1 3. rewrite Hcur, Htr, Hstj.
  destruct (Z.ltb_spec j 0) as [?|_]; [lia|].
  destruct (Z.geb_spec j (Z.of_nat (length (Trajectory.steps tr)))) as [?|_];
    [lia|].
  cbn [orb]. unfold navigateToStep. rewrite Htr.
  destruct ((i <? 0) || (i >=? _)); [done|].
  destruct (Trajectory.steps tr !! Z.to_nat i) as [sti|]; [|done].
  simpl. by rewrite !assign_assign, updateTimeline_absorb.
Qed.

(** X13.  What [navigateToStep] leaves depends on its target, not on the
    way there: after any sequence of calls of [navigateToStep], with indices
    in or out of bounds, the call for a step [j] of the trajectory gives the
    very state that the call for [j] alone would have given. *)
Theorem navigateToStep_last_wins (m : Model) (tr : Trajectory.t)
    (targets : list Z) (j : Z) :
  currentTrajectory m = Some tr ->
  0 <= j < Z.of_nat (length (Trajectory.steps tr)) ->
  navigateToStep j (fold_left (fun m i => navigateToStep i m) targets m)
  = navigateToStep j m.
Proof.
  intros Htr Hj. revert m Htr.
  induction targets as [|i targets IH]; intros m Htr; [done|]. simpl.
  rewrite IH.
  - by apply (navigateToStep_absorb i j m tr).
  - by rewrite TrajectoryViewerFacts.currentTrajectory_navigateToStep.
Qed.

Lemma navigateToStep_last_wins_witness :
  navigateToStep 1
    (fold_left (fun m i => navigateToStep i m) [2; 7; 0; -1; 2] Demo.loaded)
  = navigateToStep 1 Demo.loaded.
Proof.
  apply (navigateToStep_last_wins Demo.loaded Demo.walk [2; 7; 0; -1; 2] 1).
  - by vm_compute.
  - by vm_compute.
Defined.

(** X14.  In every state the viewer can reach, with a current trajectory:
    "previous" on step 0 and "next" on the last step (or beyond) change
    nothing; anywhere else "next" then "previous", and "previous" then
    "next", give back the state they started from, the page included. *)
Theorem next_previous_inverse (d : Dom) (m : Model) (tr : Trajectory.t) :
  reachable d m ->
  currentTrajectory m = Some tr ->
  let last := Z.of_nat (length (Trajectory.steps tr)) - 1 in
  (currentStepIndex m = 0 -> handle PrevClick m = m)
  ∧ (last <= currentStepIndex m -> handle NextClick m = m)
  ∧ (currentStepIndex m < last -> handle PrevClick (handle NextClick m) = m)
  ∧ (0 < currentStepIndex m -> handle NextClick (handle PrevClick m) = m).
Proof.
  intros Hreach Htr last.
  pose proof (TrajectoryViewerFacts.reachable_synced d m Hreach) as Hsync.
  destruct (inBounds_reachable d m Hreach) as [Hcur Hlt].
  specialize (Hlt tr Htr). unfold synced in Hsync.
  set (cur := currentStepIndex m) in *.
  assert (∀ i, currentTrajectory (navigateToStep i m) = Some tr) as Htr'
    by (intros i; by rewrite TrajectoryViewerFacts.currentTrajectory_navigateToStep).
  split; [|split; [|split]].
  - intros H0. simpl. fold cur. rewrite H0. done.
  - intros Hlast. simpl. rewrite Htr. fold cur last.
    by destruct (Z.ltb_spec cur last); [lia|].
  - intros Hnext.
    assert (handle NextClick m = navigateToStep (cur + 1) m) as ->.
    { simpl. rewrite Htr. fold cur last.
      by destruct (Z.ltb_spec cur last); [|lia]. }
    simpl.
    rewrite (TrajectoryViewerFacts.navigateToStep_in_range (cur + 1) m tr Htr)
      by (fold last; lia).
    destruct (Z.gtb_spec (cur + 1) 0); [|lia].
    replace (cur + 1 - 1) with cur by lia.
    rewrite (navigateToStep_absorb (cur + 1) cur m tr Htr) by (fold last; lia).
    exact Hsync.
  - intros Hprev.
    assert (handle PrevClick m = navigateToStep (cur - 1) m) as ->.
    { simpl. fold cur. by destruct (Z.gtb_spec cur 0); [|lia]. }
    simpl. rewrite Htr'.
    destruct (decide (Trajectory.steps tr = [])) as [Hnil|Hsteps].
    + rewrite (TrajectoryViewerFacts.navigateToStep_out_of_range (cur - 1) m tr Htr)
        by (rewrite Hnil; simpl; lia).
      fold cur. rewrite Hnil. simpl.
      by destruct (Z.ltb_spec cur (Z.of_nat 0 - 1)); [lia|].
    + specialize (Hlt Hsteps).
      rewrite (TrajectoryViewerFacts.navigateToStep_in_range (cur - 1) m tr Htr)
        by lia.
      destruct (Z.ltb_spec (cur - 1)
                  (Z.of_nat (length (Trajectory.steps tr)) - 1)); [|lia].
      replace (cur - 1 + 1) with cur by lia.
      rewrite (navigateToStep_absorb (cur - 1) cur m tr Htr) by lia.
      exact Hsync.
Qed.

Lemma next_previous_inverse_witness :
  handle PrevClick Demo.loaded = Demo.loaded
  ∧ handle PrevClick (handle NextClick Demo.loaded) = Demo.loaded
  ∧ currentStepIndex (handle NextClick Demo.loaded) = 1.
Proof.
  destruct (next_previous_inverse Demo.page Demo.loaded Demo.walk)
    as (Hfirst & _ & Hback & _).
  - apply TrajectoryViewerFacts.init_reachable.
  - by vm_compute.
  - split; [by apply Hfirst; vm_compute|].
    split; [by apply Hback; vm_compute|]. by vm_compute.
Defined.

(** *** The timeline shows the current trajectory *)

Lemma timelineCurrent_frame (m m' : Model) :
  currentTrajectory m' = currentTrajectory m ->
  currentStepIndex m' = currentStepIndex m ->
  timelineStepsContainer (dom m') = timelineStepsContainer (dom m) ->
  timelineCurrent m -> timelineCurrent m'.
Proof. unfold timelineCurrent. by intros -> -> ->. Qed.

Lemma timelineCurrent_none (m : Model) :
  currentTrajectory m = None -> timelineCurrent m.
Proof. intros Hnone tr width markers. by rewrite Hnone. Qed.

Lemma timelineCurrent_other (m : Model) :
  (∀ width markers, timelineStepsContainer (dom m) ≠ Steps width markers) ->
  timelineCurrent m.
Proof. intros Hother tr width markers _ Hsteps. by destruct (Hother width markers). Qed.

Lemma timelineCurrent_navigateToStep (i : Z) (m : Model) :
  timelineCurrent m -> timelineCurrent (navigateToStep i m).
Proof.
  intros Hm tr width markers Htr.
  rewrite TrajectoryViewerFacts.currentTrajectory_navigateToStep in Htr.
  specialize (Hm tr). unfold navigateToStep. rewrite Htr.
  destruct ((i <? 0) || (i >=? _)); [by apply Hm|].
  destruct (Trajectory.steps tr !! Z.to_nat i) as [st|]; [|by apply Hm].
  simpl. destruct (timelineStepsContainer (dom m)) as [| | |w0 ms0]; try done.
  simpl. intros [= _ <-]. rewrite (Hm w0 ms0 Htr eq_refl).
  apply markSteps_absorb.
Qed.

Lemma timelineCurrent_initializeTimeline (m : Model) :
  timelineCurrent (initializeTimeline m).
Proof.
  unfold initializeTimeline.
  destruct (currentTrajectory m) as [tr|] eqn:Htr; [|by apply timelineCurrent_none].
  set (d := {| taskSelect := _ |}).
  assert (currentTrajectory (setDom d m) = Some tr) as Htr' by (by rewrite <- Htr).
  intros tr' width markers.
  rewrite TrajectoryViewerFacts.currentTrajectory_navigateToStep, Htr'.
  intros [= <-]. unfold navigateToStep. rewrite Htr'.
  destruct (Z.of_nat (length (Trajectory.steps tr))) eqn:Hn.
  - assert (Trajectory.steps tr = []) as Hnil
      by (destruct (Trajectory.steps tr); [done|simpl in Hn; lia]).
    simpl. rewrite Hnil. simpl. by intros [= _ <-].
  - destruct (lookup_lt_is_Some_2 (Trajectory.steps tr) (Z.to_nat 0)) as [st Hst];
      [lia|].
    rewrite Hst. simpl. by intros [= _ <-].
  - lia.
Qed.

Lemma timelineCurrent_handle (e : Event) (m : Model) :
  timelineCurrent m -> timelineCurrent (handle e m).
Proof.
  intros Hm. destruct e as [| | |x|i|h]; simpl.
  - destruct (_ >? _); [by apply timelineCurrent_navigateToStep|done].
  - destruct (currentTrajectory m); [|done].
    destruct (_ <? _); [by apply timelineCurrent_navigateToStep|done].
  - unfold playTrajectory. destruct (currentTrajectory m) eqn:Htr; [|done].
    destruct (isPlaying m); revert Hm; by apply timelineCurrent_frame.
  - apply timelineCurrent_initializeTimeline.
  - by apply timelineCurrent_navigateToStep.
  - unfold tick, intervalCallback. destruct (intervals m !! h); [|done].
    destruct (_ <? _); [by apply timelineCurrent_navigateToStep|].
    revert Hm. by apply timelineCurrent_frame.
Qed.

Lemma timelineCurrent_loadTaskData_begin (taskId : string) (m : Model) :
  timelineCurrent (loadTaskData_begin taskId m).1.
Proof.
  unfold loadTaskData_begin. destruct (List.find _ _); simpl;
    by apply timelineCurrent_other.
Qed.

Lemma timelineCurrent_loadTaskData_resume (taskId : string)
    (r : Response TaskData.t) (m : Model) :
  timelineCurrent (loadTaskData_resume taskId r m).
Proof.
  destruct r as [|status text| |data]; try (by apply timelineCurrent_other).
  unfold loadTaskData_resume.
  destruct (TaskData.trajectories data) as [|[id tr] trajs] eqn:Htrajs; simpl.
  - apply timelineCurrent_none.
    apply (currentTrajectory_no_trajectories _ data); [|done].
    simpl. apply lookup_insert_eq.
  - apply timelineCurrent_initializeTimeline.
Qed.

Lemma timelineCurrent_run (a : Action) (m : Model) :
  timelineCurrent m -> timelineCurrent (run a m).
Proof.
  intros Hm. destruct a as [e| |r|x|taskId r]; simpl.
  - by apply timelineCurrent_handle.
  - by apply timelineCurrent_other.
  - destruct r as [|status text| |data]; simpl;
      try (by apply timelineCurrent_other).
    destruct (TaskIndex.tasks data) as [|first rest].
    + revert Hm. by apply timelineCurrent_frame.
    + set (m1 := {| availableTasks := first :: rest |}).
      pose proof (timelineCurrent_loadTaskData_begin (Task.id first) m1) as H.
      by destruct (loadTaskData_begin (Task.id first) m1) as [m2 [url|]].
  - apply timelineCurrent_loadTaskData_begin.
  - apply timelineCurrent_loadTaskData_resume.
Qed.

(** X15.  In every state the viewer can reach, a timeline that shows
    markers shows one marker per step of the current trajectory, marker [k]
    at [(k / (totalSteps - 1)) * 100] with index [k], marked completed before
    the current step, active on it, and plain after it. *)
Theorem reachable_timeline (d : Dom) (m : Model) (tr : Trajectory.t)
    (width : float) (markers : list Marker) (k : nat) :
  reachable d m ->
  currentTrajectory m = Some tr ->
  timelineStepsContainer (dom m) = Steps width markers ->
  let totalSteps := length (Trajectory.steps tr) in
  length markers = totalSteps
  ∧ ((k < totalSteps)%nat ->
     markers !! k
     = Some {| style_left := percentage (Z.of_nat k) (Z.of_nat totalSteps);
               index := k;
               className :=
                 if Z.of_nat k <? currentStepIndex m then "timeline-step completed"
                 else if Z.of_nat k =? currentStepIndex m then "timeline-step active"
                 else "timeline-step" |}).
Proof.
  intros Hreach Htr Htl totalSteps.
  assert (timelineCurrent m) as Hm.
  { clear Htr Htl. induction Hreach as [|a m _ IH].
    - by apply timelineCurrent_none.
    - by apply timelineCurrent_run. }
  rewrite (Hm tr width markers Htr Htl). fold totalSteps. split.
  - by rewrite TrajectoryViewerFacts.length_markSteps,
               TrajectoryViewerFacts.length_stepMarkers.
  - intros Hk.
    by rewrite TrajectoryViewerFacts.lookup_imap_markSteps,
               (TrajectoryViewerFacts.stepMarkers_lookup totalSteps k Hk).
Qed.

Lemma reachable_timeline_witness :
  let m := run (Dispatch NextClick) Demo.loaded in
  ∃ width markers,
    timelineStepsContainer (dom m) = Steps width markers
    ∧ length markers = 3%nat
    ∧ className <$> markers
      = ["timeline-step completed"; "timeline-step active"; "timeline-step"]
    ∧ markers !! 2%nat
      = Some {| style_left := percentage 2 3; index := 2;
                className := "timeline-step" |}.
Proof.
  intros m.
  destruct (timelineStepsContainer (dom m)) as [| | |width markers] eqn:Htl;
    try (by vm_compute in Htl).
  exists width, markers. split; [done|].
  destruct (reachable_timeline Demo.page m Demo.walk width markers 2)
    as [Hlen Hk].
  - apply reachable_run, TrajectoryViewerFacts.init_reachable.
  - by vm_compute.
  - done.
  - split; [exact Hlen|]. split.
    + vm_compute in Htl. by injection Htl as _ <-.
    + rewrite Hk by (simpl; lia). by vm_compute.
Defined.

(** *** A timer that outlives its trajectory *)

Lemma playback_frame_initializeTimeline (m : Model) :
  isPlaying (initializeTimeline m) = isPlaying m
  ∧ playInterval (initializeTimeline m) = playInterval m
  ∧ intervals (initializeTimeline m) = intervals m.
Proof.
  by destruct (TrajectoryViewerFacts.initializeTimeline_frame m)
    as (_ & _ & _ & _ & -> & -> & -> & _).
Qed.

(** X16.  Selecting another trajectory does not stop playback: the flag,
    the handle and the interval with the trajectory it captured stay as they
    are.  When afterwards the current step is before the last step of the
    captured trajectory but is the last step of the current one (or beyond
    it), a firing of the interval changes nothing at all, so that however
    often it fires the step does not advance and playback does not stop by
    itself. *)
Theorem stale_timer_never_stops (m : Model) (x : string) (h : nat)
    (iv : Interval) (tr : Trajectory.t) (k : nat) :
  let m' := handle (TrajectoryChange x) m in
  intervals m' !! h = Some iv ->
  currentTrajectory m' = Some tr ->
  currentStepIndex m' < Z.of_nat (length (Trajectory.steps (trajectory iv))) - 1 ->
  Z.of_nat (length (Trajectory.steps tr)) - 1 <= currentStepIndex m' ->
  (isPlaying m' = isPlaying m ∧ playInterval m' = playInterval m
   ∧ intervals m' = intervals m)
  ∧ Nat.iter k (tick h) m' = m'.
Proof.
  intros m' Hiv Htr Hcaptured Hcurrent. split.
  - subst m'. simpl.
    by destruct (playback_frame_initializeTimeline (setTrajectoryId x m))
      as (-> & -> & ->).
  - assert (tick h m' = m') as Htick.
    { destruct (TrajectoryViewerFacts.tick_live h m' iv Hiv) as [Hadv _].
      rewrite (Hadv Hcaptured).
      apply (TrajectoryViewerFacts.navigateToStep_out_of_range _ m' tr Htr).
      right. lia. }
    induction k as [|k IH]; [done|]. simpl. by rewrite IH.
Qed.

Lemma stale_timer_never_stops_witness :
  let m := handle PlayPauseClick Demo.loaded in
  let m' := handle (TrajectoryChange "glance") m in
  currentTrajectoryId m' = "glance"
  ∧ isPlaying m' = true
  ∧ (isPlaying m' = isPlaying m ∧ playInterval m' = playInterval m
     ∧ intervals m' = intervals m)
  ∧ Nat.iter 5 (tick 0) m' = m'.
Proof.
  intros m m'. split; [by vm_compute|]. split; [by vm_compute|].
  apply (stale_timer_never_stops m "glance" 0
           {| delay := 2000; trajectory := Demo.walk |} Demo.glance 5).
  - by vm_compute.
  - by vm_compute.
  - by vm_compute.
  - by vm_compute.
Defined.

(** *** Loads *)

(** X17.  Two loads in flight for different tasks: in whichever order
    the two responses arrive, both are stored, each under its own task id,
    and the entries of all other tasks stay as they are; the stored data is
    the same in both orders, and the task whose response arrives last is the
    current one. *)
Theorem loads_in_either_order (a b : string) (da db : TaskData.t) (m : Model) :
  a ≠ b ->
  let mab := loadTaskData_resume b (Json db) (loadTaskData_resume a (Json da) m) in
  let mba := loadTaskData_resume a (Json da) (loadTaskData_resume b (Json db) m) in
  taskData mab = taskData mba
  ∧ taskData mab !! a = Some da
  ∧ taskData mab !! b = Some db
  ∧ (∀ k, k ≠ a -> k ≠ b -> taskData mab !! k = taskData m !! k)
  ∧ currentTaskId mab = b
  ∧ currentTaskId mba = a.
Proof.
  intros Hne mab mba. subst mab mba.
  destruct (TrajectoryViewerFacts.loadTaskData_resume_stores
              b db (loadTaskData_resume a (Json da) m)) as (-> & -> & _).
  destruct (TrajectoryViewerFacts.loadTaskData_resume_stores
              a da (loadTaskData_resume b (Json db) m)) as (-> & -> & _).
  destruct (TrajectoryViewerFacts.loadTaskData_resume_stores a da m)
    as (-> & _ & _).
  destruct (TrajectoryViewerFacts.loadTaskData_resume_stores b db m)
    as (-> & _ & _).
  split; [by apply insert_insert_ne|].
  split; [by rewrite lookup_insert_ne, lookup_insert_eq|].
  split; [by rewrite lookup_insert_eq|].
  split; [|done]. intros k Hka Hkb. by rewrite !lookup_insert_ne.
Qed.

Lemma loads_in_either_order_witness :
  let mab := loadTaskData_resume "looks" (Json Demo.looks)
               (loadTaskData_resume "rooms" (Json Demo.rooms) Demo.loaded) in
  taskData mab !! "rooms" = Some Demo.rooms
  ∧ taskData mab !! "looks" = Some Demo.looks
  ∧ currentTaskId mab = "looks".
Proof.
  intros mab.
  destruct (loads_in_either_order "rooms" "looks" Demo.rooms Demo.looks
              Demo.loaded) as (_ & Ha & Hb & _ & Hcur & _); [done|].
  by split; [|split].
Defined.

(** X18.  When the index lists a task, its data file parses, the first
    entry of its trajectories in the order of [Object.entries] (keys that
    are integers first, ascending, then the other keys in the order of the
    file: it need not be the first trajectory of the file) has a step, and
    the two ids are not empty, [init] ends with exactly two requests (the
    index, then the data file of the first task of the index), that task and
    that entry selected, step 0 current and shown, "previous" disabled, the
    task select filled in the order of the index, the trajectory select in
    the order of [Object.entries], and playback off. *)
Theorem init_selects_first (index : TaskIndex.t)
    (net : string -> Response TaskData.t) (d : Dom)
    (first : Task.t) (rest : list Task.t) (data : TaskData.t)
    (id : string) (tr : Trajectory.t) (others : list (string * Trajectory.t))
    (st : Step.t) (sts : list Step.t) :
  TaskIndex.tasks index = first :: rest ->
  net (Task.dataFile first) = Json data ->
  TaskData.trajectories data = (id, tr) :: others ->
  Trajectory.steps tr = st :: sts ->
  Task.id first ≠ "" -> id ≠ "" ->
  let m := init (Json index) net d in
  fetched m = [indexUrl; Task.dataFile first]
  ∧ availableTasks m = first :: rest
  ∧ taskData m = {[ Task.id first := data ]}
  ∧ currentTaskId m = Task.id first
  ∧ currentTrajectoryId m = id
  ∧ currentTrajectory m = Some tr
  ∧ currentStepIndex m = 0
  ∧ isPlaying m = false ∧ intervals m = ∅
  ∧ taskSelect (dom m)
    = map (fun task => (Task.id task, Task.name task)) (first :: rest)
  ∧ trajectorySelect (dom m)
    = map (fun '(id, trajectory) => (id, or_else (Trajectory.name trajectory) id))
          ((id, tr) :: others)
  ∧ currentStepElement (dom m) = assign (currentStepElement d) "1"
  ∧ actionTextElement (dom m)
    = assign (actionTextElement d) (or_else (Step.action st) "")
  ∧ prevStepButton (dom m) = assign (prevStepButton d) true.
Proof.
  intros Htasks Hnet Htrajs Hsteps Htask Hid m.
  set (options :=
         map (fun '(id, trajectory) => (id, or_else (Trajectory.name trajectory) id))
             ((id, tr) :: others)).
  set (stored :=
         {| availableTasks := first :: rest;
            taskData := {[ Task.id first := data ]};
            currentTaskId := Task.id first; currentTrajectoryId := id;
            currentStepIndex := 0; isPlaying := false; playInterval := None;
            dom :=
              setSelects
                (map (fun task => (Task.id task, Task.name task)) (first :: rest))
                options (setTimeline LoadingIndicator d);
            intervals := ∅; nextHandle := 0;
            fetched := [indexUrl; Task.dataFile first] |}).
  assert (m = initializeTimeline stored) as ->.
  { subst m. unfold init, loadTaskIndex_resume, loadTaskIndex_begin.
    rewrite Htasks. unfold loadTaskData_begin. simpl.
    rewrite bool_decide_eq_true_2 by done.
    rewrite Hnet. unfold loadTaskData_resume. rewrite Htrajs. simpl.
    by rewrite insert_empty. }
  assert (currentTrajectory stored = Some tr) as Htr.
  { unfold currentTrajectory, truthy. simpl.
    rewrite !bool_decide_eq_true_2 by done.
    simpl. rewrite lookup_singleton_eq, Htrajs. simpl. by rewrite decide_True. }
  assert (currentTrajectory (initializeTimeline stored) = Some tr) as Htr'.
  { destruct (TrajectoryViewerFacts.initializeTimeline_frame stored)
      as (_ & H1 & H2 & H3 & _).
    by rewrite (TrajectoryViewerFacts.currentTrajectory_ext
                  stored (initializeTimeline stored) H1 H2 H3). }
  destruct (TrajectoryViewerFacts.initializeTimeline_frame stored)
    as (-> & -> & -> & -> & -> & _ & -> & _ & ->).
  repeat (split; [done|]).
  unfold initializeTimeline. rewrite Htr.
  set (d' := {| taskSelect := _ |}).
  unfold navigateToStep.
  rewrite (TrajectoryViewerFacts.currentTrajectory_ext stored (setDom d' stored)
             eq_refl eq_refl eq_refl), Htr, Hsteps.
  simpl. repeat (split; [done|]). by rewrite assign_assign.
Qed.

Lemma init_selects_first_witness :
  fetched Demo.loaded = [indexUrl; "/data/rooms.json"]
  ∧ currentTaskId Demo.loaded = "rooms"
  ∧ currentTrajectoryId Demo.loaded = "walk"
  ∧ currentStepIndex Demo.loaded = 0
  ∧ actionTextElement (dom Demo.loaded) = Some "forward".
Proof.
  destruct (init_selects_first Demo.index Demo.net Demo.page
              {| Task.id := "rooms"; Task.name := "Rooms"; Task.description := "";
                 Task.dataFile := "/data/rooms.json"; Task.thumbnail := "" |}
              (tl (TaskIndex.tasks Demo.index)) Demo.rooms
              "walk" Demo.walk [("glance", Demo.glance)]
              (Demo.step "s0.png" "at the door" "the hall is ahead" "forward")
              (tl (Trajectory.steps Demo.walk)))
    as (H1 & _ & _ & H2 & H3 & _ & H4 & _ & _ & _ & _ & _ & H5 & _);
    try done.
Defined.

(** X19.  When the index cannot be loaded, or lists no task, nothing else
    is requested and nothing is selected: the timeline shows the error
    message in the first case and keeps the loading indicator in the second,
    and the buttons, the markers and the timers have nothing to act on. *)
Theorem init_without_tasks (index : Response TaskIndex.t)
    (net : string -> Response TaskData.t) (d : Dom) :
  (∀ data, index = Json data -> TaskIndex.tasks data = []) ->
  let m := init index net d in
  fetched m = [indexUrl]
  ∧ taskData m = ∅
  ∧ currentTrajectory m = None
  ∧ timelineStepsContainer (dom m)
    = match index with
      | Json _ => LoadingIndicator
      | _ => ErrorMessage "Failed to load tasks. Please try again later."
      end
  ∧ ∀ e, (∀ x, e ≠ TrajectoryChange x) -> handle e m = m.
Proof.
  intros Hempty m.
  assert (fetched m = [indexUrl] ∧ taskData m = ∅ ∧ currentTaskId m = ""
          ∧ currentStepIndex m = 0 ∧ intervals m = ∅
          ∧ timelineStepsContainer (dom m)
            = match index with
              | Json _ => LoadingIndicator
              | _ => ErrorMessage "Failed to load tasks. Please try again later."
              end) as (Hf & Hd & Hid & Hcur & Hiv & Htl).
  { subst m. unfold init. destruct index as [|status text| |data]; try done.
    simpl. by rewrite (Hempty data eq_refl). }
  assert (currentTrajectory m = None) as Hnone
    by (unfold currentTrajectory; by rewrite Hid).
  split; [done|]. split; [done|]. split; [done|]. split; [done|].
  intros e He. destruct e as [| | |x|i|h]; simpl.
  - by rewrite Hcur.
  - by rewrite Hnone.
  - unfold playTrajectory. by rewrite Hnone.
  - by destruct (He x).
  - by apply TrajectoryViewerFacts.navigateToStep_none.
  - unfold tick. by rewrite Hiv, lookup_empty.
Qed.

Lemma init_without_tasks_witness :
  let m := init (HttpError 503 "Service Unavailable") Demo.net Demo.page in
  fetched m = [indexUrl]
  ∧ timelineStepsContainer (dom m)
    = ErrorMessage "Failed to load tasks. Please try again later."
  ∧ handle PlayPauseClick m = m.
Proof.
  intros m.
  destruct (init_without_tasks (HttpError 503 "Service Unavailable")
              Demo.net Demo.page) as (Hf & _ & _ & Htl & Hnoop); [done|].
  fold m in Hf, Htl, Hnoop. split; [done|]. split; [done|]. by apply Hnoop.
Defined.

(** *** Playback on the trajectory that was captured *)






End TrajectoryViewerRuns.
